(** * The producer side of the task queue: submission of tasks

    A shallow embedding of [composeOptions], [Client.Enqueue],
    [Client.enqueue] and [Client.schedule], together with the parts of
    the Go standard library they rely on ([strings.TrimSpace], the
    [time] package, [errors.Is], the float conversion behind
    [Duration.Seconds], [md5.Sum] and [hex.EncodeToString] behind the
    key of a unique task), and the properties of the submission
    contract proved on that embedding. *)

From Stdlib Require Import ZArith List String Ascii Bool Lia Sorted.
From Stdlib Require Import Floats.SpecFloat.
Import ListNotations.

Local Open Scope string_scope.
Local Open Scope list_scope.
Local Open Scope Z_scope.

(** ** Go strings

    A Go [string] is a sequence of bytes, here a Rocq [string].
    [strings.TrimSpace] removes the leading and the trailing white
    space as [unicode.IsSpace] defines it; the white-space code points
    are U+0009..U+000D, U+0020, U+0085, U+00A0, U+1680, U+2000..U+200A,
    U+2028, U+2029, U+202F, U+205F and U+3000, and a step of the trim
    removes exactly the UTF-8 encoding of one of them (any other prefix
    decodes to another rune or to [RuneError], neither of which is
    white space). *)

Module strings.

Definition byte_of (a : ascii) : Z := Z.of_N (N_of_ascii a).

(** The [asciiSpace] table: tab, line feed, vertical tab, form feed,
    carriage return and space. *)
Definition asciiSpace (c : Z) : bool :=
  ((9 <=? c) && (c <=? 13)) || (c =? 32).

(** The two-byte encodings: U+0085 (C2 85) and U+00A0 (C2 A0). *)
Definition space2 (b0 b1 : Z) : bool :=
  (b0 =? 194) && ((b1 =? 133) || (b1 =? 160)).

(** The three-byte encodings: U+1680 (E1 9A 80), U+2000..U+200A
    (E2 80 80..8A), U+2028, U+2029, U+202F (E2 80 A8, A9, AF), U+205F
    (E2 81 9F) and U+3000 (E3 80 80). *)
Definition space3 (b0 b1 b2 : Z) : bool :=
  ((b0 =? 225) && (b1 =? 154) && (b2 =? 128))
  || ((b0 =? 226) && (b1 =? 128)
      && (((128 <=? b2) && (b2 <=? 138))
          || (b2 =? 168) || (b2 =? 169) || (b2 =? 175)))
  || ((b0 =? 226) && (b1 =? 129) && (b2 =? 159))
  || ((b0 =? 227) && (b1 =? 128) && (b2 =? 128)).

(** What is left of [s] once the white-space rune it starts with is
    removed; [None] when [s] does not start with one. *)
Definition dropSpace (s : string) : option string :=
  match s with
  | EmptyString => None
  | String a r1 =>
      if asciiSpace (byte_of a) then Some r1
      else match r1 with
           | EmptyString => None
           | String b r2 =>
               if space2 (byte_of a) (byte_of b) then Some r2
               else match r2 with
                    | EmptyString => None
                    | String c r3 =>
                        if space3 (byte_of a) (byte_of b) (byte_of c)
                        then Some r3 else None
                    end
           end
  end.

(** The same from the end of the string, on the reversed bytes. *)
Definition dropSpaceRev (s : string) : option string :=
  match s with
  | EmptyString => None
  | String a r1 =>
      if asciiSpace (byte_of a) then Some r1
      else match r1 with
           | EmptyString => None
           | String b r2 =>
               if space2 (byte_of b) (byte_of a) then Some r2
               else match r2 with
                    | EmptyString => None
                    | String c r3 =>
                        if space3 (byte_of c) (byte_of b) (byte_of a)
                        then Some r3 else None
                    end
           end
  end.

Fixpoint trimWith (drop : string -> option string) (fuel : nat)
  (s : string) : string :=
  match fuel with
  | O => s
  | S fuel' =>
      match drop s with
      | Some r => trimWith drop fuel' r
      | None => s
      end
  end.

Fixpoint rev_append (s acc : string) : string :=
  match s with
  | EmptyString => acc
  | String a r => rev_append r (String a acc)
  end.

Definition rev (s : string) : string := rev_append s EmptyString.

(** [TrimLeftFunc s unicode.IsSpace]. *)
Definition TrimLeft (s : string) : string :=
  trimWith dropSpace (String.length s) s.

(** [TrimRightFunc s unicode.IsSpace]. *)
Definition TrimRight (s : string) : string :=
  rev (trimWith dropSpaceRev (String.length s) (rev s)).

Definition TrimSpace (s : string) : string := TrimRight (TrimLeft s).

(** A string made of white-space runes only (the empty string is
    one). *)
Inductive OnlySpace : string -> Prop :=
| OnlySpace_nil : OnlySpace EmptyString
| OnlySpace_cons s r : dropSpace s = Some r -> OnlySpace r -> OnlySpace s.

(** The same, read from the end on the reversed bytes. *)
Inductive OnlySpaceRev : string -> Prop :=
| OnlySpaceRev_nil : OnlySpaceRev EmptyString
| OnlySpaceRev_cons s r :
    dropSpaceRev s = Some r -> OnlySpaceRev r -> OnlySpaceRev s.

End strings.

Definition string_eqb (a b : string) : bool := String.eqb a b.

(** ** The [time] package

    A [time.Duration] is an [int64] count of nanoseconds.  A
    [time.Time] is modelled by the instant it denotes, in nanoseconds
    since the Unix epoch, an integer without bound: the methods used by
    the client ([IsZero], [Equal], [Before], [Unix], [Add], [Sub]) do
    not look at the location, and the monotonic reading that
    [time.Now] attaches to a value is taken to agree with its wall
    clock reading. *)

Module time.

Definition Duration := Z.
Definition Time := Z.

Definition Nanosecond : Duration := 1.
Definition Microsecond : Duration := 1000 * Nanosecond.
Definition Millisecond : Duration := 1000 * Microsecond.
Definition Second : Duration := 1000 * Millisecond.
Definition Minute : Duration := 60 * Second.
Definition Hour : Duration := 60 * Minute.

Definition minDuration : Duration := - 2 ^ 63.
Definition maxDuration : Duration := 2 ^ 63 - 1.

(** Seconds from January 1 of year 1 to January 1, 1970. *)
Definition unixToInternal : Z := 62135596800.

(** [time.Time{}], January 1 of year 1, 00:00:00 UTC. *)
Definition zeroTime : Time := - unixToInternal * Second.

(** [time.Unix(sec, nsec)]. *)
Definition Unix_of (sec nsec : Z) : Time := sec * Second + nsec.

Definition IsZero (t : Time) : bool := t =? zeroTime.
Definition Equal (t u : Time) : bool := t =? u.
Definition Before (t u : Time) : bool := t <? u.

(** [t.Unix()]: the seconds elapsed since the epoch, rounded down. *)
Definition Unix (t : Time) : Z := t / Second.

Definition Add (t : Time) (d : Duration) : Time := t + d.

(** [t.Sub(u)]: the difference, or the largest (smallest) duration
    when it does not fit. *)
Definition Sub (t u : Time) : Duration :=
  let d := t - u in
  if d <? minDuration then minDuration
  else if maxDuration <? d then maxDuration
  else d.

(** *** [Duration.Seconds] and the conversion back to [int64]

    [d.Seconds()] is [float64(d / Second) + float64(d % Second) / 1e9]
    in IEEE 754 binary64 arithmetic; [int64(f)] drops the fraction. *)

Definition prec : Z := 53.
Definition emax : Z := 1024.

Definition float64_of_Z (n : Z) : spec_float :=
  binary_normalize prec emax n 0 false.

Definition Seconds (d : Duration) : spec_float :=
  let sec := Z.quot d Second in
  let nsec := Z.rem d Second in
  SFadd prec emax (float64_of_Z sec)
    (SFdiv prec emax (float64_of_Z nsec) (float64_of_Z 1000000000)).

(** [int64(f)] for a finite [f] within the range of [int64]. *)
Definition int64_of_float (f : spec_float) : Z :=
  match f with
  | S754_finite s m e =>
      let a := if 0 <=? e then Z.pos m * 2 ^ e
               else Z.pos m / 2 ^ (- e) in
      if s then - a else a
  | _ => 0
  end.

End time.

(** ** Errors

    An [error] is a chain of wrappers that ends in an [errors.New]
    value.  The package-level error values are compared by identity
    ([==]), so each is a constructor of [sentinel]; any other leaf is a
    value allocated where the error arose, which is never identical to
    a package-level one. *)

Inductive sentinel :=
| internal_ErrDuplicateTask   (* internal/errors.ErrDuplicateTask *)
| internal_ErrTaskIdConflict  (* internal/errors.ErrTaskIdConflict *)
| public_ErrDuplicateTask     (* asynq.ErrDuplicateTask *)
| public_ErrTaskIDConflict.   (* asynq.ErrTaskIDConflict *)

Inductive error :=
| Sentinel (s : sentinel)
| errorString (msg : string)
| wrapError (msg : string) (err : error).

Definition sentinel_eqb (a b : sentinel) : bool :=
  match a, b with
  | internal_ErrDuplicateTask, internal_ErrDuplicateTask
  | internal_ErrTaskIdConflict, internal_ErrTaskIdConflict
  | public_ErrDuplicateTask, public_ErrDuplicateTask
  | public_ErrTaskIDConflict, public_ErrTaskIDConflict => true
  | _, _ => false
  end.

Module errors.

Definition ErrDuplicateTask : error := Sentinel internal_ErrDuplicateTask.
Definition ErrTaskIdConflict : error := Sentinel internal_ErrTaskIdConflict.

(** [err == target] on error values. *)
Definition same (err target : error) : bool :=
  match err, target with
  | Sentinel a, Sentinel b => sentinel_eqb a b
  | _, _ => false
  end.

Fixpoint chain (err target : error) : bool :=
  same err target
  || match err with
     | wrapError _ inner => chain inner target
     | _ => false
     end.

(** [errors.Is(err, target)]; a nil [err] is [None]. *)
Definition Is (err : option error) (target : error) : bool :=
  match err with
  | None => false
  | Some e => chain e target
  end.

End errors.

(** [ErrDuplicateTask] and [ErrTaskIDConflict] of the public package. *)
Definition ErrDuplicateTask : error := Sentinel public_ErrDuplicateTask.
Definition ErrTaskIDConflict : error := Sentinel public_ErrTaskIDConflict.

(** [fmt.Errorf("%w", err)] for the two public errors; the message of
    the wrapper is the message of the error it wraps. *)
Definition wrap_ErrDuplicateTask : error :=
  wrapError "task already exists" ErrDuplicateTask.
Definition wrap_ErrTaskIDConflict : error :=
  wrapError "task ID conflicts with another task" ErrTaskIDConflict.

(** ** Messages, tasks and options *)

Module base.

Inductive TaskState := TaskStatePending | TaskStateScheduled.

(** The fields of [base.TaskMessage] that the client sets. *)
Record TaskMessage := {
  ID : string;
  Type_ : string;
  Payload : list Byte.byte;
  Queue : string;
  Retry : Z;
  Deadline : Z;       (* Unix seconds; 0 is no deadline *)
  Timeout : Z;        (* seconds; 0 is no timeout *)
  UniqueKey : string;
  Retention : Z       (* seconds *)
}.

End base.

(** The arguments [newTaskInfo] receives from [Enqueue]; the last one
    (the result bytes) is always nil there. *)
Record TaskInfo := {
  info_msg : base.TaskMessage;
  info_state : base.TaskState;
  info_nextProcessAt : time.Time
}.

Definition newTaskInfo (msg : base.TaskMessage) (state : base.TaskState)
  (nextProcessAt : time.Time) : TaskInfo :=
  {| info_msg := msg; info_state := state;
     info_nextProcessAt := nextProcessAt |}.

(** The [Option] interface with its nine implementations; [foreignOption]
    stands for a value of any other type that implements it. *)
Inductive Option :=
| retryOption (n : Z)
| queueOption (qname : string)
| taskIDOption (id : string)
| timeoutOption (d : time.Duration)
| deadlineOption (t : time.Time)
| uniqueOption (ttl : time.Duration)
| processAtOption (t : time.Time)
| processInOption (d : time.Duration)
| retentionOption (d : time.Duration)
| foreignOption (name : string).

Definition MaxRetry (n : Z) : Option :=
  retryOption (if n <? 0 then 0 else n).
Definition Queue (qname : string) : Option := queueOption qname.
Definition TaskID (id : string) : Option := taskIDOption id.
Definition Timeout (d : time.Duration) : Option := timeoutOption d.
Definition Deadline (t : time.Time) : Option := deadlineOption t.
Definition Unique (ttl : time.Duration) : Option := uniqueOption ttl.
Definition ProcessAt (t : time.Time) : Option := processAtOption t.
Definition ProcessIn (d : time.Duration) : Option := processInOption d.
Definition Retention (d : time.Duration) : Option := retentionOption d.

(** A task: [Type()] is [typename], [Payload()] is [payload], and
    [opts] are the options given to [NewTask]. *)
Record Task := {
  typename : string;
  payload : list Byte.byte;
  opts : list Option
}.

(** The [option] struct. *)
Record option_ := {
  retry : Z;
  queue : string;
  taskID : string;
  timeout : time.Duration;
  deadline : time.Time;
  uniqueTTL : time.Duration;
  processAt : time.Time;
  retention : time.Duration
}.

(** [option{}], every field at its zero value. *)
Definition option_zero : option_ :=
  {| retry := 0; queue := ""; taskID := ""; timeout := 0;
     deadline := time.zeroTime; uniqueTTL := 0;
     processAt := time.zeroTime; retention := 0 |}.

Definition validateTaskID (id : string) : option error :=
  if string_eqb (strings.TrimSpace id) "" then
    Some (errorString "task ID cannot be empty")
  else None.

Definition defaultMaxRetry : Z := 25.
Definition defaultTimeout : time.Duration := 30 * time.Minute.
Definition noTimeout : time.Duration := 0.
Definition noDeadline : time.Time := time.Unix_of 0 0.

(** ** The backing store *)

Module rdb.

(** The four operations the client invokes on the store. *)
Inductive Call :=
| Enqueue (msg : base.TaskMessage)
| EnqueueUnique (msg : base.TaskMessage) (ttl : time.Duration)
| Schedule (msg : base.TaskMessage) (processAt : time.Time)
| ScheduleUnique (msg : base.TaskMessage) (processAt : time.Time)
    (ttl : time.Duration).

(** The message a call carries. *)
Definition message (c : Call) : base.TaskMessage :=
  match c with
  | Enqueue msg | EnqueueUnique msg _
  | Schedule msg _ | ScheduleUnique msg _ _ => msg
  end.

End rdb.

(** C3 as the spec words it: the message carries the timeout and the
    deadline unchanged. *)
Definition carried_unchanged (msg : base.TaskMessage) (d : time.Duration)
  (t : time.Time) : Prop :=
  base.Timeout msg * time.Second = d
  /\ time.Unix_of (base.Deadline msg) 0 = t.

(** ** The world around the client

    The state a call runs in: how many times the clock and the
    identifier source have been read, the store, and the calls the
    store has received, oldest first. *)
Record World (Store : Type) := {
  ticks : nat;
  drawn : nat;
  store : Store;
  trace : list rdb.Call
}.

Arguments Build_World {Store}.
Arguments ticks {Store}.
Arguments drawn {Store}.
Arguments store {Store}.
Arguments trace {Store}.

(** What the client takes from outside this file: the system clock and
    the identifier source, read one value per call; the queue-name
    validation, the default queue name and the key derivation of
    package [base]; and the store behind [rdb.RDB], a state with the
    answer it gives to each call. *)
Class Env := {
  clock : nat -> time.Time;
  uuid_source : nat -> string;
  base_DefaultQueueName : string;
  base_ValidateQueueName : string -> option error;
  base_UniqueKey : string -> string -> list Byte.byte -> string;
  RDB : Type;
  rdb_exec : RDB -> rdb.Call -> RDB * option error
}.

(** ** The client *)

Section Client.

Context {env : Env}.

Definition M (A : Type) : Type := World RDB -> A * World RDB.

Definition ret {A} (a : A) : M A := fun w => (a, w).

Definition bind {A B} (m : M A) (k : A -> M B) : M B :=
  fun w => let (a, w') := m w in k a w'.

Notation "x <- m ;; k" := (bind m (fun x => k))
  (at level 61, m at next level, right associativity).

(** [time.Now()]. *)
Definition time_Now : M time.Time :=
  fun w => (clock (ticks w),
            {| ticks := S (ticks w); drawn := drawn w;
               store := store w; trace := trace w |}).

(** [uuid.NewString()]. *)
Definition uuid_NewString : M string :=
  fun w => (uuid_source (drawn w),
            {| ticks := ticks w; drawn := S (drawn w);
               store := store w; trace := trace w |}).

(** A method of [c.rdb]. *)
Definition rdb_do (c : rdb.Call) : M (option error) :=
  fun w => let (s, err) := rdb_exec (store w) c in
           (err, {| ticks := ticks w; drawn := drawn w;
                    store := s; trace := trace w ++ [c] |}).

(** The assignments to the fields of [res]. *)
Definition set_retry (res : option_) (n : Z) : option_ :=
  {| retry := n; queue := queue res; taskID := taskID res;
     timeout := timeout res; deadline := deadline res;
     uniqueTTL := uniqueTTL res; processAt := processAt res;
     retention := retention res |}.

Definition set_queue (res : option_) (qname : string) : option_ :=
  {| retry := retry res; queue := qname; taskID := taskID res;
     timeout := timeout res; deadline := deadline res;
     uniqueTTL := uniqueTTL res; processAt := processAt res;
     retention := retention res |}.

Definition set_taskID (res : option_) (id : string) : option_ :=
  {| retry := retry res; queue := queue res; taskID := id;
     timeout := timeout res; deadline := deadline res;
     uniqueTTL := uniqueTTL res; processAt := processAt res;
     retention := retention res |}.

Definition set_timeout (res : option_) (d : time.Duration) : option_ :=
  {| retry := retry res; queue := queue res; taskID := taskID res;
     timeout := d; deadline := deadline res;
     uniqueTTL := uniqueTTL res; processAt := processAt res;
     retention := retention res |}.

Definition set_deadline (res : option_) (t : time.Time) : option_ :=
  {| retry := retry res; queue := queue res; taskID := taskID res;
     timeout := timeout res; deadline := t;
     uniqueTTL := uniqueTTL res; processAt := processAt res;
     retention := retention res |}.

Definition set_uniqueTTL (res : option_) (ttl : time.Duration) : option_ :=
  {| retry := retry res; queue := queue res; taskID := taskID res;
     timeout := timeout res; deadline := deadline res;
     uniqueTTL := ttl; processAt := processAt res;
     retention := retention res |}.

Definition set_processAt (res : option_) (t : time.Time) : option_ :=
  {| retry := retry res; queue := queue res; taskID := taskID res;
     timeout := timeout res; deadline := deadline res;
     uniqueTTL := uniqueTTL res; processAt := t;
     retention := retention res |}.

Definition set_retention (res : option_) (d : time.Duration) : option_ :=
  {| retry := retry res; queue := queue res; taskID := taskID res;
     timeout := timeout res; deadline := deadline res;
     uniqueTTL := uniqueTTL res; processAt := processAt res;
     retention := d |}.

(** One iteration of the loop of [composeOptions], the [switch] on the
    type of the option: the updated [res], or the error that makes the
    function return. *)
Definition applyOption (opt : Option) (res : option_)
  : M (option_ + error) :=
  match opt with
  | retryOption n => ret (inl (set_retry res n))
  | queueOption qname =>
      match base_ValidateQueueName qname with
      | Some err => ret (inr err)
      | None => ret (inl (set_queue res qname))
      end
  | taskIDOption id =>
      match validateTaskID id with
      | Some err => ret (inr err)
      | None => ret (inl (set_taskID res id))
      end
  | timeoutOption d => ret (inl (set_timeout res d))
  | deadlineOption t => ret (inl (set_deadline res t))
  | uniqueOption ttl => ret (inl (set_uniqueTTL res ttl))
  | processAtOption t => ret (inl (set_processAt res t))
  | processInOption d =>
      now <- time_Now ;;
      ret (inl (set_processAt res (time.Add now d)))
  | retentionOption d => ret (inl (set_retention res d))
  | foreignOption _ => ret (inl res)
  end.

(** The loop [for _, opt := range opts] with its early returns. *)
Fixpoint composeLoop (opts : list Option) (res : option_)
  : M (option_ * option error) :=
  match opts with
  | [] => ret (res, None)
  | opt :: rest =>
      r <- applyOption opt res ;;
      match r with
      | inl res' => composeLoop rest res'
      | inr err => ret (option_zero, Some err)
      end
  end.

Definition composeOptions (opts : list Option)
  : M (option_ * option error) :=
  id <- uuid_NewString ;;
  now <- time_Now ;;
  composeLoop opts
    {| retry := defaultMaxRetry; queue := base_DefaultQueueName;
       taskID := id; timeout := 0; deadline := time.zeroTime;
       uniqueTTL := 0; processAt := now; retention := 0 |}.

(** [c.enqueue]. *)
Definition enqueue (msg : base.TaskMessage) (uniqueTTL : time.Duration)
  : M (option error) :=
  if 0 <? uniqueTTL then rdb_do (rdb.EnqueueUnique msg uniqueTTL)
  else rdb_do (rdb.Enqueue msg).

(** [c.schedule]. *)
Definition schedule (msg : base.TaskMessage) (t : time.Time)
  (uniqueTTL : time.Duration) : M (option error) :=
  if 0 <? uniqueTTL then
    now <- time_Now ;;
    rdb_do (rdb.ScheduleUnique msg t (time.Sub (time.Add t uniqueTTL) now))
  else rdb_do (rdb.Schedule msg t).

(** Lines 310 to 321 of [Enqueue]: the deadline and the timeout of the
    message. *)
Definition resolveDeadline (opt : option_) : time.Time :=
  if negb (time.IsZero (deadline opt)) then deadline opt else noDeadline.

Definition resolveTimeout (opt : option_) : time.Duration :=
  let timeout := if negb (timeout opt =? 0) then timeout opt
                 else noTimeout in
  if time.Equal (resolveDeadline opt) noDeadline && (timeout =? noTimeout)
  then defaultTimeout else timeout.

(** Lines 322 to 336: the message. *)
Definition taskMessage (task : Task) (opt : option_) : base.TaskMessage :=
  let uniqueKey :=
    if 0 <? uniqueTTL opt
    then base_UniqueKey (queue opt) (typename task) (payload task)
    else "" in
  {| base.ID := taskID opt;
     base.Type_ := typename task;
     base.Payload := payload task;
     base.Queue := queue opt;
     base.Retry := retry opt;
     base.Deadline := time.Unix (resolveDeadline opt);
     base.Timeout := time.int64_of_float (time.Seconds (resolveTimeout opt));
     base.UniqueKey := uniqueKey;
     base.Retention := time.int64_of_float (time.Seconds (retention opt)) |}.

(** Lines 347 to 355: the [switch] on the error of the store. *)
Definition result (err : option error) (msg : base.TaskMessage)
  (state : base.TaskState) (processAt : time.Time)
  : option TaskInfo * option error :=
  if errors.Is err errors.ErrDuplicateTask then
    (None, Some wrap_ErrDuplicateTask)
  else if errors.Is err errors.ErrTaskIdConflict then
    (None, Some wrap_ErrTaskIDConflict)
  else match err with
       | Some e => (None, Some e)
       | None => (Some (newTaskInfo msg state processAt), None)
       end.

(** Lines 337 to 346: the choice between the two paths. *)
Definition submit (msg : base.TaskMessage) (opt : option_)
  : M (option TaskInfo * option error) :=
  now <- time_Now ;;
  if time.Before (processAt opt) now || time.Equal (processAt opt) now then
    err <- enqueue msg (uniqueTTL opt) ;;
    ret (result err msg base.TaskStatePending now)
  else
    err <- schedule msg (processAt opt) (uniqueTTL opt) ;;
    ret (result err msg base.TaskStateScheduled (processAt opt)).

Definition Enqueue (task : Task) (options : list Option)
  : M (option TaskInfo * option error) :=
  if string_eqb (strings.TrimSpace (typename task)) "" then
    ret (None, Some (errorString "task typename cannot be empty"))
  else
    r <- composeOptions (opts task ++ options) ;;
    match r with
    | (_, Some err) => ret (None, Some err)
    | (opt, None) => submit (taskMessage task opt) opt
    end.

(** *** The statements of the submission contract

    [lastOf pick l] is the value carried by the last option of [l]
    that [pick] recognises, and [pickOr] falls back to a default when
    there is none: "the last option of a kind wins". *)

Fixpoint firstOf {A B} (pick : B -> option A) (l : list B) : option A :=
  match l with
  | [] => None
  | o :: rest =>
      match pick o with
      | Some a => Some a
      | None => firstOf pick rest
      end
  end.

Definition lastOf {A B} (pick : B -> option A) (l : list B) : option A :=
  firstOf pick (List.rev l).

Definition pickOr {A B} (pick : B -> option A) (l : list B) (d : A) : A :=
  match lastOf pick l with
  | Some a => a
  | None => d
  end.

Definition retryOf (o : Option) : option Z :=
  match o with retryOption n => Some n | _ => None end.
Definition queueOf (o : Option) : option string :=
  match o with queueOption q => Some q | _ => None end.
Definition taskIDOf (o : Option) : option string :=
  match o with taskIDOption id => Some id | _ => None end.
Definition timeoutOf (o : Option) : option time.Duration :=
  match o with timeoutOption d => Some d | _ => None end.
Definition deadlineOf (o : Option) : option time.Time :=
  match o with deadlineOption t => Some t | _ => None end.
Definition uniqueOf (o : Option) : option time.Duration :=
  match o with uniqueOption d => Some d | _ => None end.
Definition retentionOf (o : Option) : option time.Duration :=
  match o with retentionOption d => Some d | _ => None end.

(** The options as the loop meets them, each with the reading the
    clock would give at that point; only [ProcessIn] reads it. *)
Fixpoint readings (l : list Option) (n : nat)
  : list (Option * time.Time) :=
  match l with
  | [] => []
  | o :: rest =>
      (o, clock n)
        :: readings rest
             (match o with processInOption _ => S n | _ => n end)
  end.

(** The scheduled time an option asks for: the time given to
    [ProcessAt], or the delay given to [ProcessIn] added to the
    reading of the clock. *)
Definition processAtOf (p : Option * time.Time) : option time.Time :=
  match p with
  | (processAtOption t, _) => Some t
  | (processInOption d, now) => Some (time.Add now d)
  | _ => None
  end.

(** The validation error an option raises in the composer, if any. *)
Definition validationError (o : Option) : option error :=
  match o with
  | queueOption qname => base_ValidateQueueName qname
  | taskIDOption id => validateTaskID id
  | _ => None
  end.

(** The call [c.enqueue] makes, and the one [c.schedule] makes when
    the clock reads [now]. *)
Definition immediateCall (msg : base.TaskMessage) (opt : option_)
  : rdb.Call :=
  if 0 <? uniqueTTL opt then rdb.EnqueueUnique msg (uniqueTTL opt)
  else rdb.Enqueue msg.

Definition deferredCall (msg : base.TaskMessage) (opt : option_)
  (now : time.Time) : rdb.Call :=
  if 0 <? uniqueTTL opt then
    rdb.ScheduleUnique msg (processAt opt)
      (time.Sub (time.Add (processAt opt) (uniqueTTL opt)) now)
  else rdb.Schedule msg (processAt opt).

(** The answer of the store to a call made in world [w]. *)
Definition answer (w : World RDB) (c : rdb.Call) : option error :=
  snd (rdb_exec (store w) c).

End Client.

(** ** Stand-ins for the collaborators

    A clock, an identifier source, the queue-name validation, a key
    derivation and an in-memory store, to run the client on. *)

Module Fake.

(** A clock that advances by a millisecond at every reading, and one
    that stands still. *)
Definition running (n : nat) : time.Time :=
  1700000000 * time.Second + Z.of_nat n * time.Millisecond.

Definition frozen (n : nat) : time.Time := 1700000000 * time.Second.

(** Identifiers that differ in their first letter. *)
Definition uuid (n : nat) : string :=
  String (ascii_of_nat (97 + n)) "ba7b810-9dad-11d1-80b4-00c04fd430c8".

Definition DefaultQueueName : string := "default".

Definition ValidateQueueName (qname : string) : option error :=
  if string_eqb (strings.TrimSpace qname) "" then
    Some (errorString "queue name must contain one or more characters")
  else None.

(** A key that spells the payload out, byte by byte, before the queue
    and the type. *)
Fixpoint spell (p : list Byte.byte) : string :=
  match p with
  | [] => "."
  | b :: rest => String "x" (String (ascii_of_byte b) (spell rest))
  end.

Definition key (qname tasktype : string) (p : list Byte.byte) : string :=
  (spell p ++ qname ++ ":" ++ tasktype)%string.

(** A store that remembers the identifiers and the unique keys it has
    accepted, and that cannot be reached for the queue "offline". *)
Record Store := {
  ids : list string;
  keys : list string
}.

Definition has (s : string) (l : list string) : bool :=
  existsb (String.eqb s) l.

Definition unique (c : rdb.Call) : bool :=
  match c with
  | rdb.EnqueueUnique _ _ | rdb.ScheduleUnique _ _ _ => true
  | _ => false
  end.

Definition exec (s : Store) (c : rdb.Call) : Store * option error :=
  let msg := rdb.message c in
  if string_eqb (base.Queue msg) "offline" then
    (s, Some (errorString "dial tcp: connection refused"))
  else if unique c && has (base.UniqueKey msg) (keys s) then
    (s, Some (wrapError "rdb.enqueueUnique" errors.ErrDuplicateTask))
  else if has (base.ID msg) (ids s) then
    (s, Some (wrapError "rdb.enqueue" errors.ErrTaskIdConflict))
  else
    ({| ids := base.ID msg :: ids s;
        keys := if unique c then base.UniqueKey msg :: keys s
                else keys s |}, None).

Definition empty : Store := {| ids := []; keys := [] |}.

Definition welcome : Task :=
  {| typename := "email:welcome";
     payload := list_byte_of_string "user=42";
     opts := [] |}.


Definition digest : Task :=
  {| typename := "email:digest";
     payload := [];
     opts := [MaxRetry 3; Timeout (5 * time.Second)] |}.



(** The collaborators together, with the running and with the frozen
    clock. *)
Definition env : Env :=
  {| clock := running; uuid_source := uuid;
     base_DefaultQueueName := DefaultQueueName;
     base_ValidateQueueName := ValidateQueueName;
     base_UniqueKey := key; RDB := Store; rdb_exec := exec |}.

Definition env_frozen : Env :=
  {| clock := frozen; uuid_source := uuid;
     base_DefaultQueueName := DefaultQueueName;
     base_ValidateQueueName := ValidateQueueName;
     base_UniqueKey := key; RDB := Store; rdb_exec := exec |}.

Definition fresh : World Store :=
  {| ticks := 0; drawn := 0; store := empty; trace := [] |}.

(** [Enqueue] with the stand-ins, on the running and on the frozen
    clock. *)
Definition run (task : Task) (options : list Option) (w : World Store) :=
  Enqueue (env := env) task options w.

Definition run_frozen (task : Task) (options : list Option)
  (w : World Store) :=
  Enqueue (env := env_frozen) task options w.

(** The world after a first unique submission of [welcome]. *)
Definition once : World Store :=
  snd (run welcome [Unique time.Minute] fresh).

End Fake.


(** ** The methods of the options *)

(** [OptionType], in the order of the [iota] declaration. *)
Inductive OptionType :=
| MaxRetryOpt
| QueueOpt
| TimeoutOpt
| DeadlineOpt
| UniqueOpt
| ProcessAtOpt
| ProcessInOpt
| TaskIDOpt
| RetentionOpt.

(** The integer behind an [OptionType]. *)
Definition OptionType_int (t : OptionType) : Z :=
  match t with
  | MaxRetryOpt => 0
  | QueueOpt => 1
  | TimeoutOpt => 2
  | DeadlineOpt => 3
  | UniqueOpt => 4
  | ProcessAtOpt => 5
  | ProcessInOpt => 6
  | TaskIDOpt => 7
  | RetentionOpt => 8
  end.

(** What [Value()] returns, an [interface{}] holding an [int], a
    [string], a [time.Duration] or a [time.Time]. *)
Inductive value :=
| int_value (n : Z)
| string_value (s : string)
| Duration_value (d : time.Duration)
| Time_value (t : time.Time).

(** [Type()] and [Value()] of the nine option types of the package;
    nothing is known of the methods of another implementation. *)
Definition Option_Type (o : Option) : option OptionType :=
  match o with
  | retryOption _ => Some MaxRetryOpt
  | queueOption _ => Some QueueOpt
  | taskIDOption _ => Some TaskIDOpt
  | timeoutOption _ => Some TimeoutOpt
  | deadlineOption _ => Some DeadlineOpt
  | uniqueOption _ => Some UniqueOpt
  | processAtOption _ => Some ProcessAtOpt
  | processInOption _ => Some ProcessInOpt
  | retentionOption _ => Some RetentionOpt
  | foreignOption _ => None
  end.

Definition Option_Value (o : Option) : option value :=
  match o with
  | retryOption n => Some (int_value n)
  | queueOption qname => Some (string_value qname)
  | taskIDOption id => Some (string_value id)
  | timeoutOption d => Some (Duration_value d)
  | deadlineOption t => Some (Time_value t)
  | uniqueOption ttl => Some (Duration_value ttl)
  | processAtOption t => Some (Time_value t)
  | processInOption d => Some (Duration_value d)
  | retentionOption d => Some (Duration_value d)
  | foreignOption _ => None
  end.

(** The field of [option] that an option writes in [composeOptions];
    [ProcessAt] and [ProcessIn] write the same one, and an option of
    another implementation writes none. *)
Inductive field :=
| retry_field
| queue_field
| taskID_field
| timeout_field
| deadline_field
| uniqueTTL_field
| processAt_field
| retention_field.

Definition fieldOf (o : Option) : option field :=
  match o with
  | retryOption _ => Some retry_field
  | queueOption _ => Some queue_field
  | taskIDOption _ => Some taskID_field
  | timeoutOption _ => Some timeout_field
  | deadlineOption _ => Some deadline_field
  | uniqueOption _ => Some uniqueTTL_field
  | processAtOption _ | processInOption _ => Some processAt_field
  | retentionOption _ => Some retention_field
  | foreignOption _ => None
  end.

(** An option that asks for a time not after [t0]: [ProcessAt] of a
    time up to [t0], or [ProcessIn] of no delay or a negative one. *)
Definition notAfter (t0 : time.Time) (o : Option) : Prop :=
  match o with
  | processAtOption t => t <= t0
  | processInOption d => d <= 0
  | _ => True
  end.

(** A call of one of the two unique operations. *)
Definition uniqueCall (c : rdb.Call) : bool :=
  match c with
  | rdb.EnqueueUnique _ _ | rdb.ScheduleUnique _ _ _ => true
  | _ => false
  end.

(** ** The log endpoint

    The handler of [POST] on the logger route keeps the entries it
    accepts in the package variable [logs].  The binding of the
    request body ([c.ShouldBindJSON], of gin and encoding/json) and
    the clock are taken from outside; requests are handled one after
    the other. *)

Module api.

Record LogEntry := {
  Timestamp : time.Time;
  Message : string
}.

(** What [c.JSON] is given: [gin.H{"error": msg}] or a log entry. *)
Inductive Body :=
| ErrorBody (msg : string)
| EntryBody (entry : LogEntry).

Record Response := {
  code : Z;
  body : Body
}.

Definition StatusCreated : Z := 201.
Definition StatusBadRequest : Z := 400.

(** The variable [logs], and how many times the clock has been
    read. *)
Record Server := {
  logs : list LogEntry;
  reads : nat
}.

(** [ShouldBindJSON] gives the entry decoded from the body, or the
    message of its error. *)
Class Gin := {
  Request : Type;
  ShouldBindJSON : Request -> LogEntry + string;
  Now : nat -> time.Time
}.

Section Handler.

Context {gin : Gin}.

Definition loggerHandler (req : Request) (s : Server) : Response * Server :=
  match ShouldBindJSON req with
  | inr msg => ({| code := StatusBadRequest; body := ErrorBody msg |}, s)
  | inl bound =>
      let logEntry :=
        {| Timestamp := Now (reads s); Message := Message bound |} in
      ({| code := StatusCreated; body := EntryBody logEntry |},
       {| logs := logs s ++ [logEntry]; reads := S (reads s) |})
  end.

(** The requests of a list, handled in order. *)
Fixpoint serve (reqs : list Request) (s : Server)
  : list Response * Server :=
  match reqs with
  | [] => ([], s)
  | req :: rest =>
      let (r, s1) := loggerHandler req s in
      let (rs, s2) := serve rest s1 in
      (r :: rs, s2)
  end.

(** The entries of the replies that report a creation. *)
Fixpoint created (rs : list Response) : list LogEntry :=
  match rs with
  | [] => []
  | {| code := c; body := EntryBody e |} :: rest =>
      if c =? StatusCreated then e :: created rest else created rest
  | _ :: rest => created rest
  end.

(** The entries that the bodies of a list of requests decode to, the
    bodies that do not decode left out. *)
Fixpoint bound (reqs : list Request) : list LogEntry :=
  match reqs with
  | [] => []
  | req :: rest =>
      match ShouldBindJSON req with
      | inl e => e :: bound rest
      | inr _ => bound rest
      end
  end.

End Handler.

(** A body is a message, or anything else; the stand-in binder takes
    the message and whatever timestamp the body carries. *)
Definition literal : Gin :=
  {| Request := option LogEntry;
     ShouldBindJSON := fun r =>
       match r with
       | Some e => inl e
       | None => inr "EOF"
       end;
     Now := fun n => 1700000000 * time.Second + Z.of_nat n |}.

End api.

(** ** The log endpoint that writes to the application log

    The other handler of the logger route decodes an entry of package
    [models], writes its JSON to the application log and sends the
    entry back.  The binding of the body, [json.Marshal] and the type
    of the [Data] field are taken from outside; the log is the list of
    the lines written, oldest first. *)

Module echo.

Record LogEntry (Data : Type) := {
  Type_ : string;
  Data_ : Data
}.

Arguments Type_ {Data}.
Arguments Data_ {Data}.

Inductive Body (Data : Type) :=
| ErrorBody (msg : string)
| EntryBody (entry : LogEntry Data).

Arguments ErrorBody {Data}.
Arguments EntryBody {Data}.

Record Response (Data : Type) := {
  code : Z;
  body : Body Data
}.

Arguments code {Data}.
Arguments body {Data}.

Definition StatusOK : Z := 200.
Definition StatusBadRequest : Z := 400.

(** [Marshal] gives the bytes, or [None] for an error. *)
Class Gin := {
  Request : Type;
  Data : Type;
  ShouldBindJSON : Request -> LogEntry Data + string;
  Marshal : LogEntry Data -> option string
}.

Section Handler.

Context {gin : Gin}.

(** The error of [json.Marshal] is dropped; the bytes are then nil and
    the line written is empty. *)
Definition loggerHandler (req : Request) (lines : list string)
  : Response Data * list string :=
  match ShouldBindJSON req with
  | inr msg => ({| code := StatusBadRequest; body := ErrorBody msg |}, lines)
  | inl logEntry =>
      let messageJson :=
        match Marshal logEntry with
        | Some bytes => bytes
        | None => ""
        end in
      ({| code := StatusOK; body := EntryBody logEntry |},
       lines ++ [messageJson])
  end.

Fixpoint serve (reqs : list Request) (lines : list string)
  : list (Response Data) * list string :=
  match reqs with
  | [] => ([], lines)
  | req :: rest =>
      let (r, lines1) := loggerHandler req lines in
      let (rs, lines2) := serve rest lines1 in
      (r :: rs, lines2)
  end.

(** The reply a request is due, and the line it is due, if any. *)
Definition replyTo (req : Request) : Response Data :=
  match ShouldBindJSON req with
  | inr msg => {| code := StatusBadRequest; body := ErrorBody msg |}
  | inl logEntry => {| code := StatusOK; body := EntryBody logEntry |}
  end.

Definition lineOf (req : Request) : list string :=
  match ShouldBindJSON req with
  | inr _ => []
  | inl logEntry =>
      match Marshal logEntry with
      | Some bytes => [bytes]
      | None => [""]
      end
  end.

End Handler.

End echo.

(** ** The checksum and the key of a unique task

    [base.UniqueKey] hashes the payload with [md5.Sum] and writes the
    checksum with [hex.EncodeToString].  Both are Go standard-library
    functions; [md5.Sum] is the MD5 message digest of RFC 1321, on
    32-bit words kept as [Z] with the wrap-around written out. *)

Module md5.

Definition u32 (x : Z) : Z := x mod 2 ^ 32.

Definition not32 (x : Z) : Z := Z.lxor x 0xffffffff.

(** [bits.RotateLeft32]. *)
Definition rotl (x s : Z) : Z :=
  u32 (Z.lor (Z.shiftl x s) (Z.shiftr x (32 - s))).

(** The per-round shift amounts. *)
Definition shifts : list Z :=
  [7; 12; 17; 22; 7; 12; 17; 22; 7; 12; 17; 22; 7; 12; 17; 22;
   5; 9; 14; 20; 5; 9; 14; 20; 5; 9; 14; 20; 5; 9; 14; 20;
   4; 11; 16; 23; 4; 11; 16; 23; 4; 11; 16; 23; 4; 11; 16; 23;
   6; 10; 15; 21; 6; 10; 15; 21; 6; 10; 15; 21; 6; 10; 15; 21].

(** The sine table: entry [i] is the integer part of
    [2^32 * abs (sin (i + 1))]. *)
Definition table : list Z :=
  [0xd76aa478; 0xe8c7b756; 0x242070db; 0xc1bdceee;
   0xf57c0faf; 0x4787c62a; 0xa8304613; 0xfd469501;
   0x698098d8; 0x8b44f7af; 0xffff5bb1; 0x895cd7be;
   0x6b901122; 0xfd987193; 0xa679438e; 0x49b40821;
   0xf61e2562; 0xc040b340; 0x265e5a51; 0xe9b6c7aa;
   0xd62f105d; 0x02441453; 0xd8a1e681; 0xe7d3fbc8;
   0x21e1cde6; 0xc33707d6; 0xf4d50d87; 0x455a14ed;
   0xa9e3e905; 0xfcefa3f8; 0x676f02d9; 0x8d2a4c8a;
   0xfffa3942; 0x8771f681; 0x6d9d6122; 0xfde5380c;
   0xa4beea44; 0x4bdecfa9; 0xf6bb4b60; 0xbebfbc70;
   0x289b7ec6; 0xeaa127fa; 0xd4ef3085; 0x04881d05;
   0xd9d4d039; 0xe6db99e5; 0x1fa27cf8; 0xc4ac5665;
   0xf4292244; 0x432aff97; 0xab9423a7; 0xfc93a039;
   0x655b59c3; 0x8f0ccc92; 0xffeff47d; 0x85845dd1;
   0x6fa87e4f; 0xfe2ce6e0; 0xa3014314; 0x4e0811a1;
   0xf7537e82; 0xbd3af235; 0x2ad7d2bb; 0xeb86d391].

(** The state of the digest: the four words A, B, C, D. *)
Definition state : Type := (Z * Z * Z * Z)%type.

Definition init : state := (0x67452301, 0xefcdab89, 0x98badcfe, 0x10325476).

(** Little-endian words of a block, and the bytes of a word. *)
Fixpoint words (l : list Z) : list Z :=
  match l with
  | b0 :: b1 :: b2 :: b3 :: rest =>
      (b0 + b1 * 2 ^ 8 + b2 * 2 ^ 16 + b3 * 2 ^ 24) :: words rest
  | _ => []
  end.

Definition to_byte (x : Z) : Byte.byte :=
  match Byte.of_N (Z.to_N (x mod 256)) with
  | Some b => b
  | None => Byte.x00
  end.

Definition le32 (x : Z) : list Byte.byte :=
  [to_byte x; to_byte (Z.shiftr x 8); to_byte (Z.shiftr x 16);
   to_byte (Z.shiftr x 24)].

Definition le64 (x : Z) : list Z :=
  map (fun k => Z.shiftr x (8 * Z.of_nat k) mod 256) (seq 0 8).

(** The message followed by the byte 0x80, by zeros up to 56 modulo
    64, and by its length in bits on eight bytes. *)
Definition pad (msg : list Z) : list Z :=
  let n := Z.of_nat (List.length msg) in
  msg ++ [0x80] ++ repeat 0 (Z.to_nat ((55 - n) mod 64))
      ++ le64 ((8 * n) mod 2 ^ 64).

Fixpoint blocks (n : nat) (l : list Z) : list (list Z) :=
  match n with
  | O => []
  | S k => firstn 64 l :: blocks k (skipn 64 l)
  end.

(** One of the 64 operations on a block of sixteen words. *)
Definition step (M : list Z) (st : state) (i : nat) : state :=
  let '(a, b, c, d) := st in
  let j := Z.of_nat i in
  let '(f, g) :=
    if j <? 16 then
      (Z.lor (Z.land b c) (Z.land (not32 b) d), j)
    else if j <? 32 then
      (Z.lor (Z.land d b) (Z.land (not32 d) c), (5 * j + 1) mod 16)
    else if j <? 48 then
      (Z.lxor (Z.lxor b c) d, (3 * j + 5) mod 16)
    else
      (Z.lxor c (Z.lor b (not32 d)), (7 * j) mod 16) in
  let x := u32 (a + f + nth i table 0 + nth (Z.to_nat g) M 0) in
  (d, u32 (b + rotl x (nth i shifts 0)), b, c).

Definition block (st : state) (bytes : list Z) : state :=
  let '(a0, b0, c0, d0) := st in
  let '(a, b, c, d) := fold_left (step (words bytes)) (seq 0 64) st in
  (u32 (a0 + a), u32 (b0 + b), u32 (c0 + c), u32 (d0 + d)).


(** [md5.Sum]: the checksum of the data, sixteen bytes. *)
Definition Sum (data : list Byte.byte) : list Byte.byte :=
  let padded := pad (map (fun b => Z.of_N (Byte.to_N b)) data) in
  let '(a, b, c, d) :=
    fold_left block (blocks (Nat.div (List.length padded) 64) padded) init in
  le32 a ++ le32 b ++ le32 c ++ le32 d.

End md5.

Module hex.

Definition hextable : list ascii :=
  list_ascii_of_string "0123456789abcdef".

Definition digit (n : nat) : ascii := nth n hextable "0"%char.

(** [hex.EncodeToString]: two lower-case digits for every byte, the
    high half first. *)
Fixpoint EncodeToString (src : list Byte.byte) : string :=
  match src with
  | [] => EmptyString
  | v :: rest =>
      let n := N.to_nat (Byte.to_N v) in
      String (digit (Nat.div n 16))
        (String (digit (Nat.modulo n 16)) (EncodeToString rest))
  end.

End hex.

(** Modelled from the spec: [base.QueueKeyPrefix], of the package
    [internal/base] that the client imports, is not under src/; it is
    the prefix every key of a queue starts with. *)
Definition QueueKeyPrefix (qname : string) : string :=
  ("asynq:{" ++ qname ++ "}:")%string.

(** Modelled from the spec: [base.UniqueKey], the key derivation of
    the package [internal/base] that the client imports, is not under
    src/.  The spec makes the key a deterministic fingerprint of the
    queue, the task type and the payload; the definition is that of
    the package: the prefix of the queue, the word unique, the task
    type and the checksum of the payload in hexadecimal, and no
    checksum for a nil payload ([None]). *)
Definition UniqueKey (qname tasktype : string)
  (payload : option (list Byte.byte)) : string :=
  match payload with
  | None => (QueueKeyPrefix qname ++ "unique:" ++ tasktype ++ ":")%string
  | Some p =>
      (QueueKeyPrefix qname ++ "unique:" ++ tasktype ++ ":"
         ++ hex.EncodeToString (md5.Sum p))%string
  end.

(** ** The stand-ins with the checksum key

    The collaborators of [Fake] with the key derivation above, the
    empty payload read as the nil one. *)

Module Keyed.

Import Byte.

Definition key (qname tasktype : string) (p : list Byte.byte) : string :=
  match p with
  | [] => UniqueKey qname tasktype None
  | _ => UniqueKey qname tasktype (Some p)
  end.

Definition env : Env :=
  {| clock := Fake.running; uuid_source := Fake.uuid;
     base_DefaultQueueName := Fake.DefaultQueueName;
     base_ValidateQueueName := Fake.ValidateQueueName;
     base_UniqueKey := key; RDB := Fake.Store; rdb_exec := Fake.exec |}.

Definition run (task : Task) (options : list Option)
  (w : World Fake.Store) :=
  Enqueue (env := env) task options w.

(** Two payloads of 128 bytes that differ in six bytes and have one
    checksum. *)
Definition left : list Byte.byte :=
  [xd1; x31; xdd; x02; xc5; xe6; xee; xc4;
   x69; x3d; x9a; x06; x98; xaf; xf9; x5c;
   x2f; xca; xb5; x87; x12; x46; x7e; xab;
   x40; x04; x58; x3e; xb8; xfb; x7f; x89;
   x55; xad; x34; x06; x09; xf4; xb3; x02;
   x83; xe4; x88; x83; x25; x71; x41; x5a;
   x08; x51; x25; xe8; xf7; xcd; xc9; x9f;
   xd9; x1d; xbd; xf2; x80; x37; x3c; x5b;
   xd8; x82; x3e; x31; x56; x34; x8f; x5b;
   xae; x6d; xac; xd4; x36; xc9; x19; xc6;
   xdd; x53; xe2; xb4; x87; xda; x03; xfd;
   x02; x39; x63; x06; xd2; x48; xcd; xa0;
   xe9; x9f; x33; x42; x0f; x57; x7e; xe8;
   xce; x54; xb6; x70; x80; xa8; x0d; x1e;
   xc6; x98; x21; xbc; xb6; xa8; x83; x93;
   x96; xf9; x65; x2b; x6f; xf7; x2a; x70].

Definition right : list Byte.byte :=
  [xd1; x31; xdd; x02; xc5; xe6; xee; xc4;
   x69; x3d; x9a; x06; x98; xaf; xf9; x5c;
   x2f; xca; xb5; x07; x12; x46; x7e; xab;
   x40; x04; x58; x3e; xb8; xfb; x7f; x89;
   x55; xad; x34; x06; x09; xf4; xb3; x02;
   x83; xe4; x88; x83; x25; xf1; x41; x5a;
   x08; x51; x25; xe8; xf7; xcd; xc9; x9f;
   xd9; x1d; xbd; x72; x80; x37; x3c; x5b;
   xd8; x82; x3e; x31; x56; x34; x8f; x5b;
   xae; x6d; xac; xd4; x36; xc9; x19; xc6;
   xdd; x53; xe2; x34; x87; xda; x03; xfd;
   x02; x39; x63; x06; xd2; x48; xcd; xa0;
   xe9; x9f; x33; x42; x0f; x57; x7e; xe8;
   xce; x54; xb6; x70; x80; x28; x0d; x1e;
   xc6; x98; x21; xbc; xb6; xa8; x83; x93;
   x96; xf9; x65; xab; x6f; xf7; x2a; x70].



End Keyed.


(** ** Properties of the standard-library model *)

Lemma dropSpace_length (s r : string) :
  strings.dropSpace s = Some r -> (String.length r < String.length s)%nat.
Proof.
  unfold strings.dropSpace.
  destruct s as [|a [|b [|c r3]]]; simpl;
    repeat match goal with
           | |- context [if ?b then _ else _] => destruct b
           end;
    intros H; inversion H; subst; simpl; lia.
Qed.

Lemma trimWith_OnlySpace (s : string) :
  strings.OnlySpace s ->
  forall fuel, (String.length s <= fuel)%nat ->
  strings.trimWith strings.dropSpace fuel s = "".
Proof.
  induction 1 as [|s r Hdrop Hr IH]; intros fuel Hfuel.
  - destruct fuel; reflexivity.
  - pose proof (dropSpace_length _ _ Hdrop) as Hlen.
    destruct fuel as [|fuel]; [lia|].
    simpl. rewrite Hdrop. apply IH. lia.
Qed.

(** A string of white space only is trimmed to the empty string. *)
Lemma TrimSpace_OnlySpace (s : string) :
  strings.OnlySpace s -> strings.TrimSpace s = "".
Proof.
  intros H. unfold strings.TrimSpace, strings.TrimLeft.
  rewrite (trimWith_OnlySpace s H) by lia. reflexivity.
Qed.

(** Conversely, a string trimmed to the empty string is made of white
    space only. *)

Lemma append_nil_r (s : string) : (s ++ "")%string = s.
Proof. induction s as [|a s IH]; simpl; [|rewrite IH]; reflexivity. Qed.

Lemma append_assoc (a b c : string) :
  ((a ++ b) ++ c)%string = (a ++ (b ++ c))%string.
Proof. induction a as [|x a IH]; simpl; [|rewrite IH]; reflexivity. Qed.

Lemma rev_append_spec (s acc : string) :
  strings.rev_append s acc = (strings.rev s ++ acc)%string.
Proof.
  unfold strings.rev. revert acc.
  induction s as [|a s IH]; intros acc; simpl; [reflexivity|].
  rewrite (IH (String a acc)), (IH (String a "")), append_assoc.
  reflexivity.
Qed.

Lemma rev_cons (a : ascii) (s : string) :
  strings.rev (String a s) = (strings.rev s ++ String a "")%string.
Proof. unfold strings.rev at 1. simpl. apply rev_append_spec. Qed.

Lemma rev_snoc (a : ascii) (s : string) :
  strings.rev (s ++ String a "")%string = String a (strings.rev s).
Proof.
  induction s as [|b s IH]; [reflexivity|].
  simpl. rewrite !rev_cons, IH. reflexivity.
Qed.

Lemma rev_involutive (s : string) : strings.rev (strings.rev s) = s.
Proof.
  induction s as [|a s IH]; [reflexivity|].
  rewrite rev_cons, rev_snoc, IH. reflexivity.
Qed.

Lemma rev_empty (s : string) : strings.rev s = "" -> s = "".
Proof.
  intros H. apply (f_equal strings.rev) in H.
  rewrite rev_involutive in H. exact H.
Qed.

Lemma dropSpace_app (s r t : string) :
  strings.dropSpace s = Some r ->
  strings.dropSpace (s ++ t)%string = Some (r ++ t)%string.
Proof.
  destruct s as [|a [|b [|c s3]]]; simpl;
    repeat match goal with
           | |- context [if ?b then _ else _] => destruct b
           end;
    intros H; inversion H; subst; reflexivity.
Qed.

Lemma OnlySpace_app (a b : string) :
  strings.OnlySpace a -> strings.OnlySpace b ->
  strings.OnlySpace (a ++ b)%string.
Proof.
  induction 1 as [|s r Hdrop Hr IH]; intros Hb; [exact Hb|].
  apply (strings.OnlySpace_cons _ (r ++ b)%string).
  - apply dropSpace_app. exact Hdrop.
  - apply IH. exact Hb.
Qed.

Lemma space2_lead (b0 b1 : Z) :
  strings.space2 b0 b1 = true -> strings.asciiSpace b0 = false.
Proof.
  unfold strings.space2, strings.asciiSpace. intros H.
  apply andb_true_iff in H. destruct H as [H _].
  apply Z.eqb_eq in H. subst. reflexivity.
Qed.

Lemma space3_lead (b0 b1 b2 : Z) :
  strings.space3 b0 b1 b2 = true ->
  strings.asciiSpace b0 = false /\ strings.space2 b0 b1 = false.
Proof.
  unfold strings.space3, strings.space2, strings.asciiSpace. intros H.
  assert (Hb : b0 = 225 \/ b0 = 226 \/ b0 = 227).
  { repeat (apply orb_true_iff in H; destruct H as [H|H]);
      repeat (apply andb_true_iff in H; destruct H as [H ?]);
      apply Z.eqb_eq in H; auto. }
  destruct Hb as [->|[->| ->]]; split; reflexivity.
Qed.

(** One white-space rune dropped from the end is one appended at the
    end of the string read forward. *)
Lemma dropSpaceRev_rev (s r : string) :
  strings.dropSpaceRev s = Some r ->
  exists q, strings.rev s = (strings.rev r ++ q)%string
            /\ strings.dropSpace q = Some "".
Proof.
  unfold strings.dropSpaceRev.
  destruct s as [|a r1]; [discriminate|].
  destruct (strings.asciiSpace (strings.byte_of a)) eqn:Ha.
  { intros H. inversion H; subst. exists (String a "").
    split; [apply rev_cons|]. simpl. rewrite Ha. reflexivity. }
  destruct r1 as [|b r2]; [discriminate|].
  destruct (strings.space2 (strings.byte_of b) (strings.byte_of a)) eqn:H2.
  { intros H. inversion H; subst. exists (String b (String a "")).
    split.
    - rewrite !rev_cons, append_assoc. reflexivity.
    - simpl. rewrite (space2_lead _ _ H2), H2. reflexivity. }
  destruct r2 as [|c r3]; [discriminate|].
  destruct (strings.space3 (strings.byte_of c) (strings.byte_of b)
              (strings.byte_of a)) eqn:H3; [|discriminate].
  intros H. inversion H; subst.
  exists (String c (String b (String a ""))). split.
  - rewrite !rev_cons, !append_assoc. reflexivity.
  - simpl. destruct (space3_lead _ _ _ H3) as [H31 H32].
    rewrite H31, H32, H3. reflexivity.
Qed.

Lemma OnlySpaceRev_rev (s : string) :
  strings.OnlySpaceRev s -> strings.OnlySpace (strings.rev s).
Proof.
  induction 1 as [|s r Hdrop Hr IH]; [constructor|].
  destruct (dropSpaceRev_rev _ _ Hdrop) as (q & -> & Hq).
  apply OnlySpace_app; [exact IH|].
  apply (strings.OnlySpace_cons _ "" Hq). constructor.
Qed.

Lemma dropSpaceRev_length (s r : string) :
  strings.dropSpaceRev s = Some r ->
  (String.length r < String.length s)%nat.
Proof.
  unfold strings.dropSpaceRev.
  destruct s as [|a [|b [|c r3]]]; simpl;
    repeat match goal with
           | |- context [if ?b then _ else _] => destruct b
           end;
    intros H; inversion H; subst; simpl; lia.
Qed.

(** Once the trim has run its course, no white space is left at the
    front. *)
Lemma trimWith_stops (fuel : nat) (s : string) :
  (String.length s <= fuel)%nat ->
  strings.dropSpace (strings.trimWith strings.dropSpace fuel s) = None.
Proof.
  revert s. induction fuel as [|fuel IH]; intros s Hlen; simpl.
  - destruct s; [reflexivity|simpl in Hlen; lia].
  - destruct (strings.dropSpace s) as [r|] eqn:Hdrop; [|exact Hdrop].
    apply IH. pose proof (dropSpace_length _ _ Hdrop). lia.
Qed.

Lemma trimWith_empty (fuel : nat) (s : string) :
  strings.trimWith strings.dropSpace fuel s = "" -> strings.OnlySpace s.
Proof.
  revert s. induction fuel as [|fuel IH]; intros s H; simpl in H.
  - subst. constructor.
  - destruct (strings.dropSpace s) as [r|] eqn:Hdrop.
    + exact (strings.OnlySpace_cons _ _ Hdrop (IH _ H)).
    + subst. constructor.
Qed.

Lemma trimWithRev_empty (fuel : nat) (s : string) :
  strings.trimWith strings.dropSpaceRev fuel s = "" ->
  strings.OnlySpaceRev s.
Proof.
  revert s. induction fuel as [|fuel IH]; intros s H; simpl in H.
  - subst. constructor.
  - destruct (strings.dropSpaceRev s) as [r|] eqn:Hdrop.
    + exact (strings.OnlySpaceRev_cons _ _ Hdrop (IH _ H)).
    + subst. constructor.
Qed.

Lemma OnlySpace_TrimSpace (s : string) :
  strings.TrimSpace s = "" -> strings.OnlySpace s.
Proof.
  unfold strings.TrimSpace, strings.TrimRight. intros H.
  apply rev_empty, trimWithRev_empty, OnlySpaceRev_rev in H.
  rewrite rev_involutive in H.
  assert (Hstop : strings.dropSpace (strings.TrimLeft s) = None)
    by (apply trimWith_stops; lia).
  inversion H as [Hnil|x r Hdrop _ Hx].
  - symmetry in Hnil. exact (trimWith_empty _ _ Hnil).
  - rewrite Hstop in Hdrop. discriminate.
Qed.

(** The test of [Enqueue] and of [validateTaskID] holds of the strings
    made of white space and of no other. *)
Lemma blank_iff (s : string) :
  strings.TrimSpace s = "" <-> strings.OnlySpace s.
Proof. split; [apply OnlySpace_TrimSpace|apply TrimSpace_OnlySpace]. Qed.

Lemma string_eqb_true (a b : string) : string_eqb a b = true <-> a = b.
Proof. apply String.eqb_eq. Qed.

(** *** Whole seconds survive the passage through [float64]

    An integer below 2^53 in absolute value is a [float64], and a
    duration of that many seconds has this integer as its
    [int64(d.Seconds())]. *)

Lemma digits2_pos_iter (m n : positive) :
  digits2_pos (Pos.iter xO m n) = (digits2_pos m + n)%positive.
Proof.
  induction n as [|n IH] using Pos.peano_ind.
  - simpl. rewrite Pos.add_1_r. reflexivity.
  - rewrite Pos.iter_succ. simpl. rewrite IH, Pos.add_succ_r. reflexivity.
Qed.

Lemma Zpos_iter (m n : positive) :
  Z.pos (Pos.iter xO m n) = Z.pos m * 2 ^ Z.pos n.
Proof.
  induction n as [|n IH] using Pos.peano_ind.
  - simpl. lia.
  - rewrite Pos.iter_succ, Pos2Z.inj_xO, IH, Pos2Z.inj_succ.
    rewrite Z.pow_succ_r by lia. lia.
Qed.

Lemma digits2_pos_bound (m : positive) :
  2 ^ (Z.pos (digits2_pos m) - 1) <= Z.pos m < 2 ^ Z.pos (digits2_pos m).
Proof.
  induction m as [p IH|p IH|]; simpl digits2_pos.
  - rewrite Pos2Z.inj_succ.
    replace (Z.succ (Z.pos (digits2_pos p)) - 1)
      with (Z.succ (Z.pos (digits2_pos p) - 1)) by lia.
    rewrite !Z.pow_succ_r by lia. lia.
  - rewrite Pos2Z.inj_succ.
    replace (Z.succ (Z.pos (digits2_pos p)) - 1)
      with (Z.succ (Z.pos (digits2_pos p) - 1)) by lia.
    rewrite !Z.pow_succ_r by lia. lia.
  - simpl. lia.
Qed.

Lemma binary_round_aux_exact (s : bool) (mz : positive) (ez : Z) :
  Z.pos (digits2_pos mz) = 53 -> -1074 <= ez <= 971 ->
  binary_round_aux 53 1024 s (Z.pos mz) ez loc_Exact = S754_finite s mz ez.
Proof.
  intros Hd He.
  assert (Hf : fexp 53 1024 (Zdigits2 (Z.pos mz) + ez) - ez = 0).
  { unfold fexp, emin. simpl Zdigits2. rewrite Hd. lia. }
  unfold binary_round_aux, shr_fexp. rewrite Hf.
  cbn [shr shr_record_of_loc shr_m shr_r shr_s loc_of_shr_record
       round_nearest_even].
  rewrite Hf.
  cbn [shr shr_record_of_loc shr_m shr_r shr_s loc_of_shr_record
       round_nearest_even].
  destruct (Z.leb_spec ez (1024 - 53)); [reflexivity|lia].
Qed.

Lemma binary_round_exact (s : bool) (m : positive) :
  Z.pos m < 2 ^ 53 ->
  exists mz ez,
    binary_round 53 1024 s m 0 = S754_finite s mz ez
    /\ -52 <= ez <= 0 /\ Z.pos mz = Z.pos m * 2 ^ (- ez).
Proof.
  intros Hm. pose proof (digits2_pos_bound m) as [Hlo _].
  assert (Hd : Z.pos (digits2_pos m) <= 53).
  { destruct (Z.le_gt_cases (Z.pos (digits2_pos m)) 53) as [|Hgt];
      [assumption|].
    assert (2 ^ 53 <= 2 ^ (Z.pos (digits2_pos m) - 1))
      by (apply Z.pow_le_mono_r; lia). lia. }
  unfold binary_round, shl_align.
  assert (Hf : fexp 53 1024 (Z.pos (digits2_pos m) + 0)
               = Z.pos (digits2_pos m) - 53).
  { unfold fexp, emin. lia. }
  rewrite Hf.
  destruct (Z.pos (digits2_pos m) - 53 - 0) as [|q|q] eqn:E; try lia.
  - exists m, 0. split; [|split; [lia|simpl; lia]].
    apply binary_round_aux_exact; lia.
  - exists (Pos.iter xO m q), (Z.pos (digits2_pos m) - 53).
    split; [|split; [lia|]].
    + apply binary_round_aux_exact; [|lia].
      rewrite digits2_pos_iter, Pos2Z.inj_add. lia.
    + rewrite Zpos_iter. f_equal. f_equal. lia.
Qed.

Lemma float64_of_Z_exact (k : Z) :
  - 2 ^ 53 < k < 2 ^ 53 ->
  time.int64_of_float (time.float64_of_Z k) = k
  /\ (k <> 0 -> exists s m e, time.float64_of_Z k = S754_finite s m e).
Proof.
  intros Hk. unfold time.float64_of_Z, time.prec, time.emax, binary_normalize.
  destruct k as [|m|m].
  - split; [reflexivity|congruence].
  - destruct (binary_round_exact false m) as (mz & ez & -> & He & Hmz); [lia|].
    split; [|eauto]. unfold time.int64_of_float.
    destruct (Z.leb_spec 0 ez).
    + assert (ez = 0) by lia. subst. simpl in Hmz. lia.
    + rewrite Hmz. apply Z.div_mul. apply Z.pow_nonzero; lia.
  - destruct (binary_round_exact true m) as (mz & ez & -> & He & Hmz); [lia|].
    split; [|eauto]. unfold time.int64_of_float.
    destruct (Z.leb_spec 0 ez).
    + assert (ez = 0) by lia. subst. simpl in Hmz. lia.
    + rewrite Hmz, Z.div_mul by (apply Z.pow_nonzero; lia). lia.
Qed.

Lemma whole_seconds (k : Z) :
  - 2 ^ 53 < k < 2 ^ 53 ->
  time.int64_of_float (time.Seconds (k * time.Second)) = k.
Proof.
  intros Hk. unfold time.Seconds.
  assert (Hs : time.Second <> 0) by (vm_compute; discriminate).
  rewrite (Z.quot_mul k time.Second Hs), (Z.rem_mul k time.Second Hs).
  replace (SFdiv time.prec time.emax (time.float64_of_Z 0)
             (time.float64_of_Z 1000000000))
    with (S754_zero false) by (vm_compute; reflexivity).
  destruct (float64_of_Z_exact k Hk) as [Hexact Hfinite].
  destruct (Z.eq_dec k 0) as [->|Hk0]; [reflexivity|].
  destruct (Hfinite Hk0) as (s & m & e & Hf).
  rewrite Hf in *. exact Hexact.
Qed.

Lemma Unix_whole (sec : Z) : time.Unix (time.Unix_of sec 0) = sec.
Proof.
  unfold time.Unix, time.Unix_of. rewrite Z.add_0_r.
  apply Z.div_mul. vm_compute. discriminate.
Qed.

(** The chain of an error ends in one leaf, so it cannot hold two
    different package-level errors. *)
Lemma chain_unique (e : error) (a b : sentinel) :
  errors.chain e (Sentinel a) = true ->
  errors.chain e (Sentinel b) = true -> a = b.
Proof.
  induction e as [s|msg|msg inner IH]; simpl.
  - rewrite !orb_false_r. destruct s, a, b; simpl; congruence.
  - discriminate.
  - exact IH.
Qed.

Lemma Is_exclusive (err : option error) :
  errors.Is err errors.ErrDuplicateTask = true ->
  errors.Is err errors.ErrTaskIdConflict = false.
Proof.
  destruct err as [e|]; simpl; [|reflexivity].
  intros Hdup.
  destruct (errors.chain e errors.ErrTaskIdConflict) eqn:Hc; [|reflexivity].
  pose proof (chain_unique e _ _ Hdup Hc). discriminate.
Qed.

(** ** The key and the checksum *)










Section Contract.

Context {env : Env}.

(** ** Properties of the loop of [composeOptions] *)

Lemma firstOf_app {A B} (pick : B -> option A) (l1 l2 : list B) :
  firstOf pick (l1 ++ l2) =
  match firstOf pick l1 with
  | Some a => Some a
  | None => firstOf pick l2
  end.
Proof.
  induction l1 as [|o l1 IH]; simpl; [reflexivity|].
  destruct (pick o); [reflexivity|exact IH].
Qed.

Lemma lastOf_cons {A B} (pick : B -> option A) (o : B) (l : list B) :
  lastOf pick (o :: l) =
  match lastOf pick l with
  | Some a => Some a
  | None => pick o
  end.
Proof.
  unfold lastOf. simpl. rewrite firstOf_app. simpl.
  destruct (firstOf pick (List.rev l)); [reflexivity|].
  destruct (pick o); reflexivity.
Qed.

(** Options given later win over options given earlier. *)
Lemma lastOf_app {A B} (pick : B -> option A) (l1 l2 : list B) :
  lastOf pick (l1 ++ l2) =
  match lastOf pick l2 with
  | Some a => Some a
  | None => lastOf pick l1
  end.
Proof.
  unfold lastOf. rewrite List.rev_app_distr. apply firstOf_app.
Qed.

Lemma pickOr_cons {A B} (pick : B -> option A) (o : B) (l : list B) (d : A) :
  pickOr pick (o :: l) d =
  pickOr pick l (match pick o with Some a => a | None => d end).
Proof.
  unfold pickOr. rewrite lastOf_cons.
  destruct (lastOf pick l); [reflexivity|]. reflexivity.
Qed.

Lemma lastOf_none {A B} (pick : B -> option A) (l : list B) :
  Forall (fun o => pick o = None) l -> lastOf pick l = None.
Proof.
  induction 1 as [|o l Ho Hl IH]; [reflexivity|].
  rewrite lastOf_cons, IH. exact Ho.
Qed.

Lemma readings_app (l1 l2 : list Option) (n : nat) :
  exists m, readings (l1 ++ l2) n = readings l1 n ++ readings l2 m.
Proof.
  revert n. induction l1 as [|o l1 IH]; intros n; simpl.
  - exists n. reflexivity.
  - destruct (IH (match o with processInOption _ => S n | _ => n end))
      as [m Hm].
    exists m. rewrite Hm. reflexivity.
Qed.

(** What one iteration does to the world: the store and its trace are
    left alone, and the clock is read by [ProcessIn] only. *)
Lemma applyOption_world (o : Option) (res : option_) (w : World RDB) :
  let w' := snd (applyOption o res w) in
  store w' = store w /\ trace w' = trace w /\ drawn w' = drawn w
  /\ ticks w' = match o with processInOption _ => S (ticks w)
                | _ => ticks w end.
Proof.
  destruct o; simpl; unfold ret; simpl;
    try (destruct (base_ValidateQueueName qname));
    try (destruct (validateTaskID id));
    simpl; auto.
Qed.

Lemma composeLoop_world (l : list Option) (res : option_) (w : World RDB) :
  let w' := snd (composeLoop l res w) in
  store w' = store w /\ trace w' = trace w.
Proof.
  revert res w. induction l as [|o l IH]; intros res w; simpl.
  - auto.
  - unfold bind.
    pose proof (applyOption_world o res w) as Hw. simpl in Hw.
    destruct (applyOption o res w) as [[res'|err] w1]; simpl in *.
    + destruct (IH res' w1) as [Hs Ht].
      destruct Hw as (Hs1 & Ht1 & _). split; congruence.
    + destruct Hw as (Hs1 & Ht1 & _). auto.
Qed.

Lemma composeOptions_world (l : list Option) (w : World RDB) :
  let w' := snd (composeOptions l w) in
  store w' = store w /\ trace w' = trace w.
Proof.
  unfold composeOptions, bind, uuid_NewString, time_Now. simpl.
  match goal with
  | |- context [composeLoop l ?r ?v] =>
      destruct (composeLoop_world l r v) as [Hs Ht]
  end.
  simpl in *. auto.
Qed.

(** A successful run of the loop sets a field to the value of the last
    option that writes it, given that one iteration does. *)
Lemma composeLoop_field {A} (f : option_ -> A) (pick : Option -> option A) :
  (forall o res w res' w',
      applyOption o res w = (inl res', w') ->
      f res' = match pick o with Some a => a | None => f res end) ->
  forall l res w res' w',
    composeLoop l res w = ((res', None), w') ->
    f res' = pickOr pick l (f res).
Proof.
  intros Hstep l. induction l as [|o l IH]; intros res w res' w' H.
  - simpl in H. unfold ret in H. inversion H; subst. reflexivity.
  - simpl in H. unfold bind in H.
    destruct (applyOption o res w) as [[res1|err] w1] eqn:Ho.
    + rewrite pickOr_cons. rewrite (IH _ _ _ _ H).
      rewrite (Hstep _ _ _ _ _ Ho). reflexivity.
    + unfold ret in H. inversion H.
Qed.

Ltac step_field :=
  let o := fresh "o" in
  let H := fresh "H" in
  intros o ? ? ? ? H; destruct o; simpl in H; unfold ret in H;
  try (destruct (base_ValidateQueueName _));
  try (destruct (validateTaskID _));
  inversion H; subst; reflexivity.

Lemma composeLoop_retry l res w res' w' :
  composeLoop l res w = ((res', None), w') ->
  retry res' = pickOr retryOf l (retry res).
Proof. apply (composeLoop_field retry retryOf). step_field. Qed.

Lemma composeLoop_queue l res w res' w' :
  composeLoop l res w = ((res', None), w') ->
  queue res' = pickOr queueOf l (queue res).
Proof. apply (composeLoop_field queue queueOf). step_field. Qed.

Lemma composeLoop_taskID l res w res' w' :
  composeLoop l res w = ((res', None), w') ->
  taskID res' = pickOr taskIDOf l (taskID res).
Proof. apply (composeLoop_field taskID taskIDOf). step_field. Qed.

Lemma composeLoop_timeout l res w res' w' :
  composeLoop l res w = ((res', None), w') ->
  timeout res' = pickOr timeoutOf l (timeout res).
Proof. apply (composeLoop_field timeout timeoutOf). step_field. Qed.

Lemma composeLoop_deadline l res w res' w' :
  composeLoop l res w = ((res', None), w') ->
  deadline res' = pickOr deadlineOf l (deadline res).
Proof. apply (composeLoop_field deadline deadlineOf). step_field. Qed.

Lemma composeLoop_uniqueTTL l res w res' w' :
  composeLoop l res w = ((res', None), w') ->
  uniqueTTL res' = pickOr uniqueOf l (uniqueTTL res).
Proof. apply (composeLoop_field uniqueTTL uniqueOf). step_field. Qed.

Lemma composeLoop_retention l res w res' w' :
  composeLoop l res w = ((res', None), w') ->
  retention res' = pickOr retentionOf l (retention res).
Proof. apply (composeLoop_field retention retentionOf). step_field. Qed.

(** The scheduled time is the one field whose value depends on when
    the option is met. *)
Lemma composeLoop_processAt l res w res' w' :
  composeLoop l res w = ((res', None), w') ->
  processAt res' =
  pickOr processAtOf (readings l (ticks w)) (processAt res).
Proof.
  revert res w. induction l as [|o l IH]; intros res w H.
  - simpl in H. unfold ret in H. inversion H; subst. reflexivity.
  - simpl in H. unfold bind in H.
    pose proof (applyOption_world o res w) as Hw. simpl in Hw.
    destruct (applyOption o res w) as [[res1|err] w1] eqn:Ho;
      [|unfold ret in H; inversion H].
    simpl in Hw. destruct Hw as (_ & _ & _ & Hticks).
    simpl readings. rewrite pickOr_cons.
    rewrite (IH _ _ H). rewrite Hticks.
    destruct o; simpl in Ho; unfold ret, bind, time_Now in Ho; simpl in Ho;
      try (destruct (base_ValidateQueueName _));
      try (destruct (validateTaskID _));
      inversion Ho; subst; reflexivity.
Qed.

(** The loop stops at the first option that fails its validation and
    returns the zero [option]. *)
Lemma composeLoop_fail (pre post : list Option) (o : Option) (err : error) :
  Forall (fun p => validationError p = None) pre ->
  validationError o = Some err ->
  forall res w,
    fst (composeLoop (pre ++ o :: post) res w) = (option_zero, Some err).
Proof.
  intros Hpre Ho. induction Hpre as [|p pre Hp Hpre IH]; intros res w.
  - simpl. unfold bind.
    destruct o; simpl in Ho; try discriminate; simpl;
      rewrite Ho; reflexivity.
  - simpl. unfold bind.
    destruct (applyOption p res w) as [[res1|e] w1] eqn:Hap.
    + apply IH.
    + exfalso. destruct p; simpl in Hp, Hap; unfold ret, bind in Hap;
        simpl in Hap; try (rewrite Hp in Hap); inversion Hap.
Qed.

(** ** Properties of [Enqueue] *)

Lemma not_blank (s : string) :
  strings.TrimSpace s <> "" -> string_eqb (strings.TrimSpace s) "" = false.
Proof.
  intros H. destruct (string_eqb (strings.TrimSpace s) "") eqn:E;
    [|reflexivity].
  apply string_eqb_true in E. contradiction.
Qed.

(** After the two checks, [Enqueue] is the submission of the message
    built from the composed options. *)
Lemma Enqueue_composed task options w opt w1 :
  strings.TrimSpace (typename task) <> "" ->
  composeOptions (opts task ++ options) w = ((opt, None), w1) ->
  Enqueue task options w = submit (taskMessage task opt) opt w1.
Proof.
  intros Hty Hc. unfold Enqueue. rewrite (not_blank _ Hty).
  unfold bind. rewrite Hc. reflexivity.
Qed.

Lemma Enqueue_rejected task options w opt err w1 :
  strings.TrimSpace (typename task) <> "" ->
  composeOptions (opts task ++ options) w = ((opt, Some err), w1) ->
  Enqueue task options w = ((None, Some err), w1).
Proof.
  intros Hty Hc. unfold Enqueue. rewrite (not_blank _ Hty).
  unfold bind. rewrite Hc. reflexivity.
Qed.

Lemma at_or_before (t now : time.Time) :
  time.Before t now || time.Equal t now = true <-> t <= now.
Proof.
  unfold time.Before, time.Equal.
  destruct (Z.ltb_spec t now), (Z.eqb_spec t now); simpl; split;
    intros; try lia; try reflexivity; discriminate.
Qed.

Lemma after (t now : time.Time) :
  time.Before t now || time.Equal t now = false <-> now < t.
Proof.
  unfold time.Before, time.Equal.
  destruct (Z.ltb_spec t now), (Z.eqb_spec t now); simpl; split;
    intros; try lia; try reflexivity; discriminate.
Qed.

(** The immediate path: one call, answered by the store as it was. *)
Lemma submit_immediate msg opt w :
  processAt opt <= clock (ticks w) ->
  fst (submit msg opt w) =
    result (answer w (immediateCall msg opt)) msg base.TaskStatePending
      (clock (ticks w))
  /\ trace (snd (submit msg opt w)) = trace w ++ [immediateCall msg opt].
Proof.
  intros Hle. apply at_or_before in Hle.
  unfold submit, bind, time_Now. simpl. rewrite Hle.
  unfold enqueue, immediateCall, answer, rdb_do, ret.
  destruct (0 <? uniqueTTL opt); simpl;
    match goal with
    | |- context [rdb_exec ?s ?c] => destruct (rdb_exec s c) as [s' e]
    end; simpl; auto.
Qed.

(** The deferred path; [c.schedule] reads the clock once more when the
    task is unique. *)
Lemma submit_deferred msg opt w :
  clock (ticks w) < processAt opt ->
  let c := deferredCall msg opt (clock (S (ticks w))) in
  fst (submit msg opt w) =
    result (answer w c) msg base.TaskStateScheduled (processAt opt)
  /\ trace (snd (submit msg opt w)) = trace w ++ [c].
Proof.
  intros Hlt. apply after in Hlt.
  unfold submit, bind, time_Now. simpl. rewrite Hlt.
  unfold schedule, deferredCall, answer, rdb_do, ret, bind, time_Now.
  destruct (0 <? uniqueTTL opt); simpl;
    match goal with
    | |- context [rdb_exec ?s ?c] => destruct (rdb_exec s c) as [s' e]
    end; simpl; auto.
Qed.

(** Whatever the path, exactly one call reaches the store, and it
    carries the message. *)
Lemma submit_sends msg opt w :
  exists c, trace (snd (submit msg opt w)) = trace w ++ [c]
            /\ rdb.message c = msg
            /\ fst (submit msg opt w) =
               result (answer w c) msg
                 (if time.Before (processAt opt) (clock (ticks w))
                     || time.Equal (processAt opt) (clock (ticks w))
                  then base.TaskStatePending else base.TaskStateScheduled)
                 (if time.Before (processAt opt) (clock (ticks w))
                     || time.Equal (processAt opt) (clock (ticks w))
                  then clock (ticks w) else processAt opt).
Proof.
  destruct (time.Before (processAt opt) (clock (ticks w))
            || time.Equal (processAt opt) (clock (ticks w))) eqn:E.
  - apply at_or_before in E.
    destruct (submit_immediate msg opt w E) as [Hr Ht].
    exists (immediateCall msg opt). repeat split; auto.
    unfold immediateCall. destruct (0 <? uniqueTTL opt); reflexivity.
  - apply after in E.
    destruct (submit_deferred msg opt w E) as [Hr Ht].
    eexists. repeat split; eauto.
    unfold deferredCall. destruct (0 <? uniqueTTL opt); reflexivity.
Qed.

(** The deadline and the timeout of the message when neither was
    asked for. *)
Lemma resolve_defaults (opt : option_) :
  timeout opt = 0 -> deadline opt = time.zeroTime ->
  resolveDeadline opt = noDeadline /\ resolveTimeout opt = defaultTimeout.
Proof.
  intros Ht Hd. unfold resolveTimeout, resolveDeadline.
  rewrite Ht, Hd. split; reflexivity.
Qed.

Lemma default_timeout_seconds :
  time.int64_of_float (time.Seconds defaultTimeout) = 1800.
Proof. vm_compute. reflexivity. Qed.

(** Unfolding of [composeOptions] into its loop. *)
Lemma composeOptions_loop (l : list Option) (w : World RDB) :
  composeOptions l w =
  composeLoop l
    {| retry := defaultMaxRetry; queue := base_DefaultQueueName;
       taskID := uuid_source (drawn w); timeout := 0;
       deadline := time.zeroTime; uniqueTTL := 0;
       processAt := clock (ticks w); retention := 0 |}
    {| ticks := S (ticks w); drawn := S (drawn w);
       store := store w; trace := trace w |}.
Proof. reflexivity. Qed.

(** ** A zero timeout, a zero deadline *)





Lemma composeLoop_cons o l res w :
  composeLoop (o :: l) res w =
  let (r, w1) := applyOption o res w in
  match r with
  | inl res' => composeLoop l res'
  | inr err => ret (option_zero, Some err)
  end w1.
Proof. reflexivity. Qed.



(** [Enqueue] depends on its options through their composition only. *)
Lemma Enqueue_ext task options options' w :
  composeOptions (opts task ++ options) w =
  composeOptions (opts task ++ options') w ->
  Enqueue task options w = Enqueue task options' w.
Proof.
  intros H. unfold Enqueue.
  destruct (string_eqb (strings.TrimSpace (typename task)) "");
    [reflexivity|].
  unfold bind. rewrite H. reflexivity.
Qed.

(** ** The submission contract *)

(** C1. A task whose type name is empty or made of white space only is
    refused with a validation error, and the world is left as it was:
    no call reaches the store, and neither the clock nor the identifier
    source is read. *)
Theorem Enqueue_blank_typename (task : Task) (options : list Option)
  (w : World RDB) :
  strings.OnlySpace (typename task) ->
  Enqueue task options w =
    ((None, Some (errorString "task typename cannot be empty")), w)
  /\ trace (snd (Enqueue task options w)) = trace w
  /\ store (snd (Enqueue task options w)) = store w.
Proof.
  intros H. apply TrimSpace_OnlySpace in H.
  assert (E : Enqueue task options w =
              ((None, Some (errorString "task typename cannot be empty")),
               w)).
  { unfold Enqueue. rewrite H. reflexivity. }
  rewrite E. auto.
Qed.

(** C2. When neither the task nor the call gives a timeout or a
    deadline option, the message built for the submission has the
    default timeout of 30 minutes (1800 seconds) and the no-deadline
    value (0), and this message is the one the store receives. *)
Theorem Enqueue_default_timeout (task : Task) (options : list Option)
  (w : World RDB) (opt : option_) (w1 : World RDB) :
  composeOptions (opts task ++ options) w = ((opt, None), w1) ->
  Forall (fun o => timeoutOf o = None) (opts task ++ options) ->
  Forall (fun o => deadlineOf o = None) (opts task ++ options) ->
  let msg := taskMessage task opt in
  base.Timeout msg = 1800
  /\ base.Timeout msg * time.Second = 30 * time.Minute
  /\ base.Deadline msg = time.Unix noDeadline
  /\ base.Deadline msg = 0
  /\ (strings.TrimSpace (typename task) <> "" ->
      exists c, trace (snd (Enqueue task options w)) = trace w ++ [c]
                /\ rdb.message c = msg).
Proof.
  intros Hc Hto Hdl msg.
  rewrite composeOptions_loop in Hc.
  pose proof (composeLoop_timeout _ _ _ _ _ Hc) as Ht.
  pose proof (composeLoop_deadline _ _ _ _ _ Hc) as Hd.
  unfold pickOr in Ht, Hd.
  rewrite (lastOf_none _ _ Hto) in Ht.
  rewrite (lastOf_none _ _ Hdl) in Hd. simpl in Ht, Hd.
  destruct (resolve_defaults opt Ht Hd) as [Hrd Hrt].
  assert (Hm : base.Timeout msg = 1800).
  { unfold msg, taskMessage. simpl. rewrite Hrt.
    apply default_timeout_seconds. }
  assert (Hdm : base.Deadline msg = time.Unix noDeadline).
  { unfold msg, taskMessage. simpl. rewrite Hrd. reflexivity. }
  split; [exact Hm|]. split; [rewrite Hm; reflexivity|].
  split; [exact Hdm|]. split; [rewrite Hdm; reflexivity|].
  intros Hty.
  {
    rewrite <- composeOptions_loop in Hc.
    rewrite (Enqueue_composed _ _ _ _ _ Hty Hc).
    subst msg.
    destruct (submit_sends (taskMessage task opt) opt w1)
      as (c & Htr & Hmsg & _).
    destruct (composeOptions_world (opts task ++ options) w) as [_ Ht1].
    rewrite Hc in Ht1. simpl in Ht1.
    exists c. rewrite Htr, Ht1. auto.
  }
Qed.

(** Where a timeout and a deadline are both carried.  When the last
    timeout option is not zero and the last deadline option is not the
    zero time, the message takes its timeout from
    [int64(timeout.Seconds())] and its deadline from [deadline.Unix()],
    each field from its own option; a timeout of a whole number of
    seconds and a deadline on a whole second are carried unchanged. *)
Theorem Enqueue_timeout_and_deadline (task : Task) (options : list Option)
  (w : World RDB) (opt : option_) (w1 : World RDB) (d : time.Duration)
  (t : time.Time) :
  composeOptions (opts task ++ options) w = ((opt, None), w1) ->
  lastOf timeoutOf (opts task ++ options) = Some d -> d <> 0 ->
  lastOf deadlineOf (opts task ++ options) = Some t -> t <> time.zeroTime ->
  let msg := taskMessage task opt in
  base.Timeout msg = time.int64_of_float (time.Seconds d)
  /\ base.Deadline msg = time.Unix t
  /\ (forall k sec,
        - 2 ^ 53 < k < 2 ^ 53 -> d = k * time.Second ->
        t = time.Unix_of sec 0 ->
        carried_unchanged msg d t).
Proof.
  intros Hc Hd Hd0 Ht Ht0 msg.
  rewrite composeOptions_loop in Hc.
  pose proof (composeLoop_timeout _ _ _ _ _ Hc) as Hto.
  pose proof (composeLoop_deadline _ _ _ _ _ Hc) as Hdl.
  unfold pickOr in Hto, Hdl. rewrite Hd in Hto. rewrite Ht in Hdl.
  assert (Hrd : resolveDeadline opt = t).
  { unfold resolveDeadline, time.IsZero. rewrite Hdl.
    destruct (Z.eqb_spec t time.zeroTime); [contradiction|reflexivity]. }
  assert (Hrt : resolveTimeout opt = d).
  { unfold resolveTimeout. rewrite Hrd, Hto.
    destruct (Z.eqb_spec d 0) as [|_]; [contradiction|]. simpl.
    unfold noTimeout.
    destruct (Z.eqb_spec d 0) as [|_]; [contradiction|].
    rewrite andb_false_r. reflexivity. }
  assert (Hmt : base.Timeout msg = time.int64_of_float (time.Seconds d)).
  { unfold msg, taskMessage. simpl. rewrite Hrt. reflexivity. }
  assert (Hmd : base.Deadline msg = time.Unix t).
  { unfold msg, taskMessage. simpl. rewrite Hrd. reflexivity. }
  split; [exact Hmt|]. split; [exact Hmd|].
  intros k sec Hk -> ->. unfold carried_unchanged.
  rewrite Hmt, Hmd, (whole_seconds k Hk), Unix_whole. auto.
Qed.

(** C5. With [now] the reading of the clock taken by [Enqueue] after
    the options are composed: a scheduled time at or before [now] sends
    the message on the immediate path ([Enqueue] or [EnqueueUnique]),
    and the task information returned has state pending and [now] as
    its processing time; a scheduled time after [now] sends it on the
    deferred path ([Schedule] or [ScheduleUnique]) for that time, and
    the state returned is scheduled. *)
Theorem Enqueue_routing (task : Task) (options : list Option)
  (w : World RDB) (opt : option_) (w1 : World RDB) :
  strings.TrimSpace (typename task) <> "" ->
  composeOptions (opts task ++ options) w = ((opt, None), w1) ->
  let now := clock (ticks w1) in
  let msg := taskMessage task opt in
  let out := Enqueue task options w in
  (processAt opt <= now ->
   exists c,
     trace (snd out) = trace w ++ [c]
     /\ (c = rdb.Enqueue msg \/ c = rdb.EnqueueUnique msg (uniqueTTL opt))
     /\ (answer w c = None ->
         fst out = (Some (newTaskInfo msg base.TaskStatePending now), None))
     /\ (forall info, fst (fst out) = Some info ->
         info_state info = base.TaskStatePending
         /\ info_nextProcessAt info = now))
  /\ (now < processAt opt ->
      exists c,
        trace (snd out) = trace w ++ [c]
        /\ (c = rdb.Schedule msg (processAt opt)
            \/ exists ttl, c = rdb.ScheduleUnique msg (processAt opt) ttl)
        /\ (answer w c = None ->
            fst out =
              (Some (newTaskInfo msg base.TaskStateScheduled (processAt opt)),
               None))
        /\ (forall info, fst (fst out) = Some info ->
            info_state info = base.TaskStateScheduled
            /\ info_nextProcessAt info = processAt opt)).
Proof.
  intros Hty Hc now msg out. subst out msg.
  set (msg := taskMessage task opt).
  destruct (composeOptions_world (opts task ++ options) w) as [Hs1 Ht1].
  rewrite Hc in Hs1, Ht1. simpl in Hs1, Ht1.
  assert (Hans : forall c, answer w1 c = answer w c).
  { intros c. unfold answer. rewrite Hs1. reflexivity. }
  rewrite (Enqueue_composed _ _ _ _ _ Hty Hc). fold msg.
  split; intros Hcmp.
  - destruct (submit_immediate msg opt w1 Hcmp) as [Hr Htr].
    exists (immediateCall msg opt).
    rewrite Htr, Ht1, Hr, Hans. repeat split.
    + unfold immediateCall. destruct (0 <? uniqueTTL opt); auto.
    + intros Hnone. rewrite Hnone. reflexivity.
    + unfold result in H.
      destruct (errors.Is _ errors.ErrDuplicateTask); [discriminate|].
      destruct (errors.Is _ errors.ErrTaskIdConflict); [discriminate|].
      destruct (answer w (immediateCall msg opt)); [discriminate|].
      inversion H. reflexivity.
    + unfold result in H.
      destruct (errors.Is _ errors.ErrDuplicateTask); [discriminate|].
      destruct (errors.Is _ errors.ErrTaskIdConflict); [discriminate|].
      destruct (answer w (immediateCall msg opt)); [discriminate|].
      inversion H. reflexivity.
  - destruct (submit_deferred msg opt w1 Hcmp) as [Hr Htr].
    exists (deferredCall msg opt (clock (S (ticks w1)))).
    rewrite Htr, Ht1, Hr, Hans. repeat split.
    + unfold deferredCall. destruct (0 <? uniqueTTL opt); eauto.
    + intros Hnone. rewrite Hnone. reflexivity.
    + unfold result in H.
      destruct (errors.Is _ errors.ErrDuplicateTask); [discriminate|].
      destruct (errors.Is _ errors.ErrTaskIdConflict); [discriminate|].
      destruct (answer w _); [discriminate|].
      inversion H. reflexivity.
    + unfold result in H.
      destruct (errors.Is _ errors.ErrDuplicateTask); [discriminate|].
      destruct (errors.Is _ errors.ErrTaskIdConflict); [discriminate|].
      destruct (answer w _); [discriminate|].
      inversion H. reflexivity.
Qed.

(** C6. [Enqueue] composes the options of the task followed by the
    options of the call.  When the composition succeeds, every field of
    the result holds the value of the last option in that sequence
    that writes it, so an option of the call wins over an option of
    the task; a field that no option writes keeps its default: 25
    retries, the default queue, a fresh identifier, no timeout, no
    deadline, no uniqueness, the reading of the clock taken when the
    composition starts, and no retention.  [ProcessAt] and [ProcessIn]
    write the same field, the scheduled time. *)
Theorem composeOptions_last_wins (task : Task) (options : list Option)
  (w : World RDB) (res : option_) (w1 : World RDB) :
  composeOptions (opts task ++ options) w = ((res, None), w1) ->
  let all := opts task ++ options in
  retry res = pickOr retryOf all 25
  /\ queue res = pickOr queueOf all base_DefaultQueueName
  /\ taskID res = pickOr taskIDOf all (uuid_source (drawn w))
  /\ timeout res = pickOr timeoutOf all 0
  /\ deadline res = pickOr deadlineOf all time.zeroTime
  /\ uniqueTTL res = pickOr uniqueOf all 0
  /\ processAt res =
     pickOr processAtOf (readings all (S (ticks w))) (clock (ticks w))
  /\ retention res = pickOr retentionOf all 0
  /\ (forall A (pick : Option -> option A) (a : A),
        lastOf pick options = Some a -> lastOf pick all = Some a)
  /\ (exists m,
        readings all (S (ticks w)) =
          readings (opts task) (S (ticks w)) ++ readings options m
        /\ forall t, lastOf processAtOf (readings options m) = Some t ->
                     processAt res = t)
  /\ (strings.TrimSpace (typename task) <> "" ->
      Enqueue task options w = submit (taskMessage task res) res w1).
Proof.
  intros Hc all. pose proof Hc as Hloop.
  rewrite composeOptions_loop in Hloop.
  pose proof (composeLoop_processAt _ _ _ _ _ Hloop) as Hp.
  simpl in Hp. fold all in Hp.
  split; [exact (composeLoop_retry _ _ _ _ _ Hloop)|].
  split; [exact (composeLoop_queue _ _ _ _ _ Hloop)|].
  split; [exact (composeLoop_taskID _ _ _ _ _ Hloop)|].
  split; [exact (composeLoop_timeout _ _ _ _ _ Hloop)|].
  split; [exact (composeLoop_deadline _ _ _ _ _ Hloop)|].
  split; [exact (composeLoop_uniqueTTL _ _ _ _ _ Hloop)|].
  split; [exact Hp|].
  split; [exact (composeLoop_retention _ _ _ _ _ Hloop)|].
  split.
  { intros A pick a Ha. unfold all. rewrite lastOf_app, Ha. reflexivity. }
  split.
  { destruct (readings_app (opts task) options (S (ticks w))) as [m Hm].
    exists m. split; [exact Hm|].
    intros t Ht. rewrite Hp. unfold pickOr, all.
    rewrite Hm, lastOf_app, Ht. reflexivity. }
  intros Hty. exact (Enqueue_composed _ _ _ _ _ Hty Hc).
Qed.

(** C7. When an option fails its validation (a queue name that
    [ValidateQueueName] refuses, or a task identifier that is blank
    once trimmed) and every option before it passes, the composer
    returns the error of that option with the zero [option], and
    [Enqueue] returns that error; the store receives no call. *)
Theorem composeOptions_first_failure (task : Task) (options : list Option)
  (pre post : list Option) (o : Option) (err : error) (w : World RDB) :
  opts task ++ options = pre ++ o :: post ->
  Forall (fun p => validationError p = None) pre ->
  (exists qname, o = queueOption qname
                 /\ base_ValidateQueueName qname = Some err)
  \/ (exists id, o = taskIDOption id /\ strings.TrimSpace id = ""
                 /\ err = errorString "task ID cannot be empty") ->
  fst (composeOptions (opts task ++ options) w) = (option_zero, Some err)
  /\ trace (snd (composeOptions (opts task ++ options) w)) = trace w
  /\ store (snd (composeOptions (opts task ++ options) w)) = store w
  /\ (strings.TrimSpace (typename task) <> "" ->
      fst (Enqueue task options w) = (None, Some err)
      /\ trace (snd (Enqueue task options w)) = trace w
      /\ store (snd (Enqueue task options w)) = store w).
Proof.
  intros Hsplit Hpre Ho.
  assert (Hv : validationError o = Some err).
  { destruct Ho as [(qname & -> & Hq)|(id & -> & Hid & ->)]; simpl.
    - exact Hq.
    - unfold validateTaskID. rewrite Hid. reflexivity. }
  assert (Hf : fst (composeOptions (opts task ++ options) w)
               = (option_zero, Some err)).
  { rewrite Hsplit, composeOptions_loop.
    apply (composeLoop_fail _ _ _ _ Hpre Hv). }
  destruct (composeOptions_world (opts task ++ options) w) as [Hs Ht].
  split; [exact Hf|]. split; [exact Ht|]. split; [exact Hs|].
  intros Hty.
  destruct (composeOptions (opts task ++ options) w) as [[opt e] w1] eqn:Hc.
  simpl in Hf, Hs, Ht. inversion Hf; subst.
  rewrite (Enqueue_rejected _ _ _ _ _ _ Hty Hc). simpl. auto.
Qed.

(** C8. On the deferred path with a uniqueness TTL above zero, the
    store receives [ScheduleUnique] with the scheduled time and with
    the guard [t.Add(uniqueTTL).Sub(now)], where [now] is the reading
    of the clock taken by [c.schedule]; the guard is the integer
    [scheduled time + TTL - now] whenever that fits a [Duration]. *)
Theorem schedule_unique_guard (task : Task) (options : list Option)
  (w : World RDB) (opt : option_) (w1 : World RDB) :
  strings.TrimSpace (typename task) <> "" ->
  composeOptions (opts task ++ options) w = ((opt, None), w1) ->
  clock (ticks w1) < processAt opt ->
  0 < uniqueTTL opt ->
  let now := clock (S (ticks w1)) in
  let guard := time.Sub (time.Add (processAt opt) (uniqueTTL opt)) now in
  trace (snd (Enqueue task options w)) =
    trace w ++ [rdb.ScheduleUnique (taskMessage task opt) (processAt opt)
                  guard]
  /\ (time.minDuration <= processAt opt + uniqueTTL opt - now
        <= time.maxDuration ->
      guard = processAt opt + uniqueTTL opt - now).
Proof.
  intros Hty Hc Hlt Httl now guard.
  destruct (composeOptions_world (opts task ++ options) w) as [_ Ht1].
  rewrite Hc in Ht1. simpl in Ht1.
  rewrite (Enqueue_composed _ _ _ _ _ Hty Hc).
  destruct (submit_deferred (taskMessage task opt) opt w1 Hlt) as [_ Htr].
  rewrite Htr, Ht1. unfold deferredCall.
  apply Z.ltb_lt in Httl. rewrite Httl. split; [reflexivity|].
  intros [Hlo Hhi]. unfold guard, time.Sub, time.Add.
  destruct (Z.ltb_spec (processAt opt + uniqueTTL opt - now)
              time.minDuration); [lia|].
  destruct (Z.ltb_spec time.maxDuration
              (processAt opt + uniqueTTL opt - now)); [lia|].
  reflexivity.
Qed.

(** C9. The answer of the store to the one call of a submission is
    mapped as follows: an answer that is [errors.ErrDuplicateTask]
    gives the public [ErrDuplicateTask] (wrapped by [%w]); one that is
    [errors.ErrTaskIdConflict] gives the public [ErrTaskIDConflict];
    any other error is returned as it is.  The two public errors are
    told apart by [errors.Is]. *)
Theorem Enqueue_error_mapping (task : Task) (options : list Option)
  (w : World RDB) (opt : option_) (w1 : World RDB) :
  strings.TrimSpace (typename task) <> "" ->
  composeOptions (opts task ++ options) w = ((opt, None), w1) ->
  let out := Enqueue task options w in
  (exists c,
     trace (snd out) = trace w ++ [c]
     /\ rdb.message c = taskMessage task opt
     /\ (errors.Is (answer w c) errors.ErrDuplicateTask = true ->
         fst out = (None, Some wrap_ErrDuplicateTask))
     /\ (errors.Is (answer w c) errors.ErrTaskIdConflict = true ->
         fst out = (None, Some wrap_ErrTaskIDConflict))
     /\ (forall e, answer w c = Some e ->
         errors.Is (answer w c) errors.ErrDuplicateTask = false ->
         errors.Is (answer w c) errors.ErrTaskIdConflict = false ->
         fst out = (None, Some e)))
  /\ errors.Is (Some wrap_ErrDuplicateTask) ErrDuplicateTask = true
  /\ errors.Is (Some wrap_ErrDuplicateTask) ErrTaskIDConflict = false
  /\ errors.Is (Some wrap_ErrTaskIDConflict) ErrTaskIDConflict = true
  /\ errors.Is (Some wrap_ErrTaskIDConflict) ErrDuplicateTask = false.
Proof.
  intros Hty Hc out. subst out.
  split; [|repeat split; reflexivity].
  destruct (composeOptions_world (opts task ++ options) w) as [Hs1 Ht1].
  rewrite Hc in Hs1, Ht1. simpl in Hs1, Ht1.
  rewrite (Enqueue_composed _ _ _ _ _ Hty Hc).
  destruct (submit_sends (taskMessage task opt) opt w1)
    as (c & Htr & Hmsg & Hres).
  assert (Hans : answer w1 c = answer w c).
  { unfold answer. rewrite Hs1. reflexivity. }
  exists c. rewrite Htr, Ht1, Hres, Hans.
  split; [reflexivity|]. split; [exact Hmsg|].
  unfold result. split; [|split].
  - intros Hdup. rewrite Hdup. reflexivity.
  - intros Hcon.
    destruct (errors.Is (answer w c) errors.ErrDuplicateTask) eqn:Hdup.
    + rewrite (Is_exclusive _ Hdup) in Hcon. discriminate.
    + rewrite Hcon. reflexivity.
  - intros e He Hdup Hcon. rewrite Hdup, Hcon, He. reflexivity.
Qed.



End Contract.

(** ** The client at work *)

Lemma welcome_typename : strings.TrimSpace (typename Fake.welcome) <> "".
Proof. vm_compute. discriminate. Qed.

(** A type name of three spaces is refused and nothing happens. *)
Lemma Enqueue_blank_typename_witness :
  strings.OnlySpace "   "
  /\ Fake.run {| typename := "   "; payload := []; opts := [] |}
       [Queue "critical"] Fake.fresh
     = ((None, Some (errorString "task typename cannot be empty")),
        Fake.fresh).
Proof.
  assert (H : strings.OnlySpace "   ").
  { repeat (eapply strings.OnlySpace_cons; [reflexivity|]).
    apply strings.OnlySpace_nil. }
  split; [exact H|].
  exact (proj1 (Enqueue_blank_typename (env := Fake.env)
                  {| typename := "   "; payload := []; opts := [] |}
                  [Queue "critical"] Fake.fresh H)).
Defined.

(** Without a timeout or a deadline option the store receives 1800
    seconds and no deadline. *)
Lemma Enqueue_default_timeout_witness :
  exists c,
    trace (snd (Fake.run Fake.welcome [MaxRetry 3; Queue "critical"]
                  Fake.fresh)) = [c]
    /\ base.Timeout (rdb.message c) = 1800
    /\ base.Deadline (rdb.message c) = 0.
Proof.
  edestruct (Enqueue_default_timeout (env := Fake.env) Fake.welcome
               [MaxRetry 3; Queue "critical"] Fake.fresh)
    as (Ht & _ & _ & Hd & Hsend).
  - reflexivity.
  - repeat constructor.
  - repeat constructor.
  - destruct (Hsend welcome_typename) as (c & Htr & Hm).
    exists c. rewrite Hm. split; [exact Htr|]. split; [exact Ht|exact Hd].
Defined.

(** The example of the spec: no options, hence 25 retries, the default
    queue, 1800 seconds, no deadline, and the state pending. *)
Example welcome_without_options :
  exists msg,
    Fake.run Fake.welcome [] Fake.fresh
    = ((Some (newTaskInfo msg base.TaskStatePending (Fake.running 1)), None),
       {| ticks := 2; drawn := 1;
          store := {| Fake.ids := [Fake.uuid 0]; Fake.keys := [] |};
          trace := [rdb.Enqueue msg] |})
    /\ base.Retry msg = 25 /\ base.Queue msg = "default"
    /\ base.Timeout msg = 1800 /\ base.Deadline msg = 0.
Proof. eexists. split; [reflexivity|]. repeat split. Qed.

(** A timeout of 90 seconds and a deadline on a whole second are both
    in the message, unchanged. *)
Lemma Enqueue_timeout_and_deadline_witness :
  exists c,
    trace (snd (Fake.run Fake.welcome
                  [Timeout (90 * time.Second);
                   Deadline (time.Unix_of 1900000000 0)] Fake.fresh)) = [c]
    /\ base.Timeout (rdb.message c) = 90
    /\ base.Deadline (rdb.message c) = 1900000000
    /\ carried_unchanged (rdb.message c) (90 * time.Second)
         (time.Unix_of 1900000000 0).
Proof.
  edestruct (Enqueue_timeout_and_deadline (env := Fake.env) Fake.welcome
               [Timeout (90 * time.Second);
                Deadline (time.Unix_of 1900000000 0)] Fake.fresh)
    as (Ht & Hd & Hsame).
  - reflexivity.
  - reflexivity.
  - vm_compute. discriminate.
  - reflexivity.
  - vm_compute. discriminate.
  - eexists. split; [reflexivity|].
    split; [exact Ht|]. split; [exact Hd|].
    apply (Hsame 90 1900000000); [lia|reflexivity|reflexivity].
Defined.

(** C3. [Timeout(500 * time.Millisecond)] given with a deadline: the
    message sent has the deadline and the timeout 0, the value a
    message without a timeout has, so it does not carry the timeout
    unchanged, and the whole submission is the one the deadline alone
    gives.  Given alone, the same option leaves the message with
    neither a timeout nor a deadline. *)
Theorem Enqueue_subsecond_timeout :
  let half := 500 * time.Millisecond in
  let day := time.Unix_of 1900000000 0 in
  (exists msg,
     trace (snd (Fake.run Fake.welcome [Timeout half; Deadline day]
                   Fake.fresh)) = [rdb.Enqueue msg]
     /\ base.Timeout msg = 0
     /\ base.Timeout msg = time.int64_of_float (time.Seconds noTimeout)
     /\ base.Deadline msg = 1900000000
     /\ ~ carried_unchanged msg half day)
  /\ Fake.run Fake.welcome [Timeout half; Deadline day] Fake.fresh
     = Fake.run Fake.welcome [Deadline day] Fake.fresh
  /\ (exists msg,
        trace (snd (Fake.run Fake.welcome [Timeout half] Fake.fresh))
        = [rdb.Enqueue msg]
        /\ base.Timeout msg = 0 /\ base.Deadline msg = 0).
Proof.
  intros half day. split; [|split].
  - eexists. split; [reflexivity|].
    split; [reflexivity|]. split; [reflexivity|]. split; [reflexivity|].
    intros [H _]. vm_compute in H. discriminate.
  - vm_compute. reflexivity.
  - eexists. split; [reflexivity|]. split; reflexivity.
Qed.

(** The seconds of a duration go through [float64]: just below a
    whole second, far enough from zero, the sum is rounded up. *)
Example seconds_rounded_up :
  time.int64_of_float
    (time.Seconds (16777216 * time.Second + 999999999 * time.Nanosecond))
  = 16777217.
Proof. vm_compute. reflexivity. Qed.

(** The checksums of RFC 1321 for the empty message, for abc and
    for a message of two blocks. *)
Example Sum_empty :
  hex.EncodeToString (md5.Sum []) = "d41d8cd98f00b204e9800998ecf8427e".
Proof. vm_compute. reflexivity. Qed.

Example Sum_abc :
  hex.EncodeToString (md5.Sum (list_byte_of_string "abc"))
  = "900150983cd24fb0d6963f7d28e17f72".
Proof. vm_compute. reflexivity. Qed.

Example Sum_digits :
  hex.EncodeToString
    (md5.Sum (list_byte_of_string
       ("1234567890123456789012345678901234567890"
        ++ "1234567890123456789012345678901234567890")%string))
  = "57edf4a22be3c955ac49da2e2107b67a".
Proof. vm_compute. reflexivity. Qed.

Example UniqueKey_welcome :
  UniqueKey "default" "email:welcome" (Some (payload Fake.welcome))
  = "asynq:{default}:unique:email:welcome:8954fdfd84f9af2dd42c6e7b6ee88051"
  /\ UniqueKey "default" "email:welcome" None
     = "asynq:{default}:unique:email:welcome:".
Proof. split; vm_compute; reflexivity. Qed.





(** A task asked for an hour ago is pending, and its processing time
    is the reading of the clock at submission. *)
Lemma Enqueue_routing_witness :
  exists info,
    fst (fst (Fake.run Fake.welcome
                [ProcessAt (Fake.running 0 - time.Hour)] Fake.fresh))
    = Some info
    /\ info_state info = base.TaskStatePending
    /\ info_nextProcessAt info = Fake.running 1.
Proof.
  eexists. split; [reflexivity|].
  edestruct (Enqueue_routing (env := Fake.env) Fake.welcome
               [ProcessAt (Fake.running 0 - time.Hour)] Fake.fresh)
    as [Hnow _].
  - exact welcome_typename.
  - reflexivity.
  - destruct Hnow as (c & _ & _ & _ & Hinfo).
    + vm_compute. discriminate.
    + apply Hinfo. reflexivity.
Defined.

Example scheduled_in_an_hour :
  exists msg,
    Fake.run Fake.welcome [ProcessIn time.Hour] Fake.fresh
    = ((Some (newTaskInfo msg base.TaskStateScheduled
                (Fake.running 1 + time.Hour)), None),
       {| ticks := 3; drawn := 1;
          store := {| Fake.ids := [Fake.uuid 0]; Fake.keys := [] |};
          trace := [rdb.Schedule msg (Fake.running 1 + time.Hour)] |}).
Proof. eexists. reflexivity. Qed.

(** The options of the call win over those of the task, and what
    neither gives keeps its default. *)
Lemma composeOptions_last_wins_witness :
  exists res w1,
    composeOptions (env := Fake.env)
      (opts Fake.digest ++ [MaxRetry 7; Queue "critical"]) Fake.fresh
    = ((res, None), w1)
    /\ retry res = 7 /\ queue res = "critical"
    /\ timeout res = 5 * time.Second /\ retention res = 0
    /\ processAt res = Fake.running 0.
Proof.
  eexists. eexists. split; [reflexivity|].
  edestruct (composeOptions_last_wins (env := Fake.env) Fake.digest
               [MaxRetry 7; Queue "critical"] Fake.fresh)
    as (Hretry & Hqueue & _ & Htimeout & _ & _ & Hat & Hret & _).
  - reflexivity.
  - rewrite Hretry, Hqueue. repeat split.
Defined.

(** A blank task identifier after a valid queue name: the error is
    the one of the identifier, and the store is not called. *)
Lemma composeOptions_first_failure_witness :
  fst (Fake.run Fake.welcome [Queue "critical"; TaskID "  "; Queue ""]
         Fake.fresh)
  = (None, Some (errorString "task ID cannot be empty"))
  /\ trace (snd (Fake.run Fake.welcome
                   [Queue "critical"; TaskID "  "; Queue ""] Fake.fresh))
     = [].
Proof.
  edestruct (composeOptions_first_failure (env := Fake.env) Fake.welcome
               [Queue "critical"; TaskID "  "; Queue ""]
               [Queue "critical"] [Queue ""] (TaskID "  ")
               (errorString "task ID cannot be empty") Fake.fresh)
    as (_ & _ & _ & Henq).
  - reflexivity.
  - repeat constructor.
  - right. exists "  ". repeat split.
  - destruct (Henq welcome_typename) as (Hf & Ht & _).
    split; [exact Hf|exact Ht].
Defined.

(** The example of the spec: in an hour, unique for ten minutes; with
    the clock standing still the guard is 70 minutes. *)
Lemma schedule_unique_guard_witness :
  exists msg,
    trace (snd (Fake.run_frozen Fake.welcome
                  [ProcessIn time.Hour; Unique (10 * time.Minute)]
                  Fake.fresh))
    = [rdb.ScheduleUnique msg (Fake.frozen 0 + time.Hour)
         (70 * time.Minute)].
Proof.
  eexists.
  edestruct (schedule_unique_guard (env := Fake.env_frozen) Fake.welcome
               [ProcessIn time.Hour; Unique (10 * time.Minute)] Fake.fresh)
    as [Htrace _].
  - exact welcome_typename.
  - reflexivity.
  - reflexivity.
  - reflexivity.
  - exact Htrace.
Defined.

(** With the clock running, the guard is shorter by the time that
    passed between the composition and the call. *)
Example guard_on_running_clock :
  exists msg,
    trace (snd (Fake.run Fake.welcome
                  [ProcessIn time.Hour; Unique (10 * time.Minute)]
                  Fake.fresh))
    = [rdb.ScheduleUnique msg (Fake.running 1 + time.Hour)
         (70 * time.Minute - 2 * time.Millisecond)].
Proof. eexists. reflexivity. Qed.

(** A scheduled time too far ahead for a [Duration]: the guard is the
    largest one. *)
Example guard_saturates :
  exists msg,
    trace (snd (Fake.run Fake.welcome
                  [ProcessAt (Fake.running 0 + 2 ^ 63); Unique time.Minute]
                  Fake.fresh))
    = [rdb.ScheduleUnique msg (Fake.running 0 + 2 ^ 63) time.maxDuration].
Proof. eexists. reflexivity. Qed.

(** The same unique task submitted twice: the second answer is the
    public duplicate error. *)
Lemma Enqueue_error_mapping_witness :
  fst (Fake.run Fake.welcome [Unique time.Minute] Fake.once)
  = (None, Some wrap_ErrDuplicateTask).
Proof.
  edestruct (Enqueue_error_mapping (env := Fake.env) Fake.welcome
               [Unique time.Minute] Fake.once)
    as [(c & Htr & _ & Hdup & _) _].
  - exact welcome_typename.
  - reflexivity.
  - vm_compute in Htr. injection Htr as Hc. subst c.
    apply Hdup. reflexivity.
Defined.

Example identifier_conflict :
  fst (Fake.run Fake.welcome [TaskID "a-1"]
         (snd (Fake.run Fake.welcome [TaskID "a-1"] Fake.fresh)))
  = (None, Some wrap_ErrTaskIDConflict).
Proof. reflexivity. Qed.

Example store_error_unchanged :
  fst (Fake.run Fake.welcome [Queue "offline"] Fake.fresh)
  = (None, Some (errorString "dial tcp: connection refused")).
Proof. reflexivity. Qed.


(** [Timeout(0)] alone gives the default timeout, as no option does. *)
Example zero_timeout_default :
  Fake.run Fake.welcome [Timeout 0] Fake.fresh
  = Fake.run Fake.welcome [] Fake.fresh
  /\ exists msg,
       trace (snd (Fake.run Fake.welcome [Timeout 0] Fake.fresh))
       = [rdb.Enqueue msg]
       /\ base.Timeout msg = 1800.
Proof. split; [reflexivity|]. eexists. split; reflexivity. Qed.

(** White space beyond ASCII: a no-break space (C2 A0) before and an
    ideographic space (E3 80 80) after are trimmed. *)
Example TrimSpace_unicode :
  strings.TrimSpace
    (String (ascii_of_nat 194) (String (ascii_of_nat 160)
       (String "a" (String (ascii_of_nat 227) (String (ascii_of_nat 128)
          (String (ascii_of_nat 128) ""))))))
  = "a".
Proof. reflexivity. Qed.

(** ** More of the client *)

Section More.

Context {env : Env}.

Lemma lastOf_retry_In (l : list Option) (n : Z) :
  lastOf retryOf l = Some n -> In (retryOption n) l.
Proof.
  induction l as [|o l IH]; [discriminate|].
  rewrite lastOf_cons.
  destruct (lastOf retryOf l) as [m|].
  - intros H. inversion H; subst. right. apply IH. reflexivity.
  - destruct o; simpl; try discriminate.
    intros H. inversion H; subst. left. reflexivity.
Qed.

Lemma MaxRetry_max (n : Z) : MaxRetry n = retryOption (Z.max 0 n).
Proof.
  unfold MaxRetry. destruct (Z.ltb_spec n 0); f_equal; lia.
Qed.

(** X1. When every retry option among the options of the task and of
    the call was made by [MaxRetry], the retry count of the message is
    never negative: it is the count given last, or zero if that one was
    negative, or 25. *)
Theorem retry_never_negative (task : Task) (options : list Option)
  (w : World RDB) (opt : option_) (w1 : World RDB) :
  composeOptions (opts task ++ options) w = ((opt, None), w1) ->
  (forall n, In (retryOption n) (opts task ++ options) ->
             exists k, retryOption n = MaxRetry k) ->
  0 <= base.Retry (taskMessage task opt)
  /\ (lastOf retryOf (opts task ++ options) = None ->
      base.Retry (taskMessage task opt) = 25)
  /\ (forall pre k post,
        opts task ++ options = pre ++ MaxRetry k :: post ->
        Forall (fun o => retryOf o = None) post ->
        base.Retry (taskMessage task opt) = Z.max 0 k).
Proof.
  intros Hc Hmade. rewrite composeOptions_loop in Hc.
  pose proof (composeLoop_retry _ _ _ _ _ Hc) as Hr.
  unfold pickOr in Hr. simpl in Hr.
  change (base.Retry (taskMessage task opt)) with (retry opt).
  split; [|split].
  - destruct (lastOf retryOf (opts task ++ options)) as [n|] eqn:Hl.
    + destruct (Hmade n (lastOf_retry_In _ _ Hl)) as [k Hk].
      rewrite MaxRetry_max in Hk. inversion Hk. lia.
    + rewrite Hr. unfold defaultMaxRetry. lia.
  - intros Hl. rewrite Hl in Hr. exact Hr.
  - intros pre k post Hsplit Hpost.
    rewrite Hsplit, lastOf_app, lastOf_cons, (lastOf_none _ _ Hpost) in Hr.
    rewrite MaxRetry_max in Hr. exact Hr.
Qed.

(** X2. Among the options of the package, the type, as the integer
    it is, and the value tell which option it is. *)
Theorem Option_Type_Value_inj (o o' : Option) :
  Option_Type o <> None ->
  option_map OptionType_int (Option_Type o)
  = option_map OptionType_int (Option_Type o') ->
  Option_Value o = Option_Value o' ->
  o = o'.
Proof.
  destruct o, o'; simpl; intros Hn Ht Hv;
    try discriminate; try congruence.
Qed.

Lemma clock_mono (n m : nat) :
  (forall k, clock k <= clock (S k)) -> (n <= m)%nat -> clock n <= clock m.
Proof.
  intros Hmono Hle. induction Hle as [|m Hle IH]; [lia|].
  specialize (Hmono m). lia.
Qed.

Lemma applyOption_notAfter (k0 : nat) (o : Option) (res : option_)
  (w : World RDB) (res' : option_) (w' : World RDB) :
  (forall k, clock k <= clock (S k)) ->
  applyOption o res w = (inl res', w') ->
  notAfter (clock k0) o ->
  (k0 < ticks w)%nat ->
  (exists k, (k < ticks w)%nat /\ processAt res <= clock k) ->
  (k0 < ticks w')%nat
  /\ exists k, (k < ticks w')%nat /\ processAt res' <= clock k.
Proof.
  intros Hmono Hap Hna Hk0 (k & Hk & Hle).
  destruct o; simpl in Hap, Hna; unfold ret, bind, time_Now in Hap;
    simpl in Hap;
    try (destruct (base_ValidateQueueName _));
    try (destruct (validateTaskID _));
    inversion Hap; subst; simpl;
    try (split; [lia|exists k; split; [lia|exact Hle]]).
  - split; [exact Hk0|]. exists k0. split; [exact Hk0|exact Hna].
  - split; [lia|]. exists (ticks w). split; [lia|].
    unfold time.Add. lia.
Qed.

Lemma composeLoop_notAfter (k0 : nat) (l : list Option) :
  (forall k, clock k <= clock (S k)) ->
  Forall (notAfter (clock k0)) l ->
  forall res w res' w',
    composeLoop l res w = ((res', None), w') ->
    (k0 < ticks w)%nat ->
    (exists k, (k < ticks w)%nat /\ processAt res <= clock k) ->
    exists k, (k < ticks w')%nat /\ processAt res' <= clock k.
Proof.
  intros Hmono Hall. induction Hall as [|o l Ho Hl IH];
    intros res w res' w' Hc Hk0 Hinv.
  - simpl in Hc. unfold ret in Hc. inversion Hc; subst. exact Hinv.
  - rewrite composeLoop_cons in Hc.
    destruct (applyOption o res w) as [[res1|e] w1] eqn:Hap;
      [|unfold ret in Hc; inversion Hc].
    destruct (applyOption_notAfter k0 _ _ _ _ _ Hmono Hap Ho Hk0 Hinv)
      as [Hk1 Hinv1].
    exact (IH _ _ _ _ Hc Hk1 Hinv1).
Qed.

Lemma result_info (err : option error) (msg : base.TaskMessage)
  (state : base.TaskState) (t : time.Time) (info : TaskInfo) :
  fst (result err msg state t) = Some info ->
  err = None /\ info = newTaskInfo msg state t.
Proof.
  unfold result.
  destruct (errors.Is err errors.ErrDuplicateTask); [discriminate|].
  destruct (errors.Is err errors.ErrTaskIdConflict); [discriminate|].
  destruct err; [discriminate|].
  simpl. intros H. inversion H. auto.
Qed.

(** X3. On a clock that does not go back, a task whose options ask
    for no time after the moment the composition starts (no
    [ProcessAt] or [ProcessIn] at all, [ProcessIn] of zero or less,
    [ProcessAt] of a time up to that moment) goes to the store on the
    immediate path, and the state returned is pending. *)
Theorem not_after_is_pending (task : Task) (options : list Option)
  (w : World RDB) (opt : option_) (w1 : World RDB) :
  (forall k, clock k <= clock (S k)) ->
  strings.TrimSpace (typename task) <> "" ->
  composeOptions (opts task ++ options) w = ((opt, None), w1) ->
  Forall (notAfter (clock (ticks w))) (opts task ++ options) ->
  let msg := taskMessage task opt in
  let out := Enqueue task options w in
  (trace (snd out) = trace w ++ [rdb.Enqueue msg]
   \/ trace (snd out) = trace w ++ [rdb.EnqueueUnique msg (uniqueTTL opt)])
  /\ forall info, fst (fst out) = Some info ->
       info_state info = base.TaskStatePending
       /\ info_nextProcessAt info = clock (ticks w1).
Proof.
  intros Hmono Hty Hc Hall msg out. subst msg out.
  destruct (composeOptions_world (opts task ++ options) w) as [_ Ht1].
  rewrite Hc in Ht1. simpl in Ht1.
  pose proof Hc as Hloop. rewrite composeOptions_loop in Hloop.
  destruct (composeLoop_notAfter (ticks w) _ Hmono Hall _ _ _ _ Hloop)
    as (k & Hk & Hle).
  { simpl. lia. }
  { exists (ticks w). simpl. split; [lia|lia]. }
  assert (Hnow : processAt opt <= clock (ticks w1)).
  { pose proof (clock_mono k (ticks w1) Hmono). lia. }
  rewrite (Enqueue_composed _ _ _ _ _ Hty Hc).
  destruct (submit_immediate (taskMessage task opt) opt w1 Hnow)
    as [Hr Htr].
  rewrite Htr, Ht1, Hr. split.
  - unfold immediateCall. destruct (0 <? uniqueTTL opt); auto.
  - intros info Hinfo. apply result_info in Hinfo.
    destruct Hinfo as [_ ->]. auto.
Qed.

(** The path taken, whatever it is: one call, answered by the store as
    it was, and the store as that call leaves it. *)
Lemma submit_full (msg : base.TaskMessage) (opt : option_) (w : World RDB) :
  exists c state t,
    trace (snd (submit msg opt w)) = trace w ++ [c]
    /\ store (snd (submit msg opt w)) = fst (rdb_exec (store w) c)
    /\ fst (submit msg opt w) = result (answer w c) msg state t
    /\ (c = immediateCall msg opt
        \/ c = deferredCall msg opt (clock (S (ticks w)))).
Proof.
  unfold submit, bind, time_Now. simpl.
  destruct (time.Before (processAt opt) (clock (ticks w))
            || time.Equal (processAt opt) (clock (ticks w))).
  - exists (immediateCall msg opt), base.TaskStatePending, (clock (ticks w)).
    unfold enqueue, immediateCall, answer, rdb_do, ret.
    destruct (0 <? uniqueTTL opt); simpl;
      match goal with
      | |- context [rdb_exec ?s ?c] => destruct (rdb_exec s c) as [s' e]
      end; simpl; auto.
  - exists (deferredCall msg opt (clock (S (ticks w)))),
      base.TaskStateScheduled, (processAt opt).
    unfold schedule, deferredCall, answer, rdb_do, ret, bind, time_Now.
    destruct (0 <? uniqueTTL opt); simpl;
      match goal with
      | |- context [rdb_exec ?s ?c] => destruct (rdb_exec s c) as [s' e]
      end; simpl; auto.
Qed.

Lemma message_immediateCall msg opt :
  rdb.message (immediateCall msg opt) = msg.
Proof. unfold immediateCall. destruct (0 <? uniqueTTL opt); reflexivity. Qed.

Lemma message_deferredCall msg opt now :
  rdb.message (deferredCall msg opt now) = msg.
Proof. unfold deferredCall. destruct (0 <? uniqueTTL opt); reflexivity. Qed.

(** X4. The store is asked for uniqueness exactly when the message
    carries a key: with a uniqueness TTL of zero or less (no [Unique]
    option, or one that is not positive) the call is a plain one and
    the key of the message is empty; with a positive TTL the call is
    [EnqueueUnique] with that TTL, or [ScheduleUnique], and the key is
    the one derived from the queue, the type and the payload. *)
Theorem unique_call_iff_key (task : Task) (options : list Option)
  (w : World RDB) (opt : option_) (w1 : World RDB) :
  strings.TrimSpace (typename task) <> "" ->
  composeOptions (opts task ++ options) w = ((opt, None), w1) ->
  let msg := taskMessage task opt in
  exists c,
    trace (snd (Enqueue task options w)) = trace w ++ [c]
    /\ rdb.message c = msg
    /\ (uniqueTTL opt <= 0 ->
        uniqueCall c = false /\ base.UniqueKey msg = "")
    /\ (0 < uniqueTTL opt ->
        uniqueCall c = true
        /\ base.UniqueKey msg
           = base_UniqueKey (queue opt) (typename task) (payload task)
        /\ (c = rdb.EnqueueUnique msg (uniqueTTL opt)
            \/ exists guard, c = rdb.ScheduleUnique msg (processAt opt) guard)).
Proof.
  intros Hty Hc msg. subst msg.
  destruct (composeOptions_world (opts task ++ options) w) as [_ Ht1].
  rewrite Hc in Ht1. simpl in Ht1.
  rewrite (Enqueue_composed _ _ _ _ _ Hty Hc).
  destruct (submit_full (taskMessage task opt) opt w1)
    as (c & state & t & Htr & _ & _ & Hcall).
  exists c. rewrite Htr, Ht1. split; [reflexivity|].
  split.
  { destruct Hcall as [-> | ->];
      [apply message_immediateCall|apply message_deferredCall]. }
  assert (Hkey : base.UniqueKey (taskMessage task opt)
                 = if 0 <? uniqueTTL opt
                   then base_UniqueKey (queue opt) (typename task)
                          (payload task)
                   else "") by reflexivity.
  rewrite Hkey. split.
  - intros Hle. assert (H0 : (0 <? uniqueTTL opt) = false)
      by (apply Z.ltb_ge; lia).
    rewrite H0. split; [|reflexivity].
    destruct Hcall as [-> | ->]; unfold immediateCall, deferredCall;
      rewrite H0; reflexivity.
  - intros Hlt. assert (H0 : (0 <? uniqueTTL opt) = true)
      by (apply Z.ltb_lt; lia).
    rewrite H0. split; [|split; [reflexivity|]].
    + destruct Hcall as [-> | ->]; unfold immediateCall, deferredCall;
        rewrite H0; reflexivity.
    + destruct Hcall as [-> | ->]; unfold immediateCall, deferredCall;
        rewrite H0; eauto.
Qed.

(** X5. A call of [Enqueue] returns either the task information and
    no error, or an error and no task information.  In the first case
    the store has received exactly one call, carrying the message of
    the information, and has accepted it.  In the second case the store
    has received no call and is as it was, or it has received exactly
    one call and refused it.  The store is never called twice. *)
Theorem Enqueue_outcome (task : Task) (options : list Option)
  (w : World RDB) :
  let out := Enqueue task options w in
  (exists info c,
     fst out = (Some info, None)
     /\ trace (snd out) = trace w ++ [c]
     /\ rdb.message c = info_msg info
     /\ answer w c = None
     /\ store (snd out) = fst (rdb_exec (store w) c))
  \/ (exists err,
        fst out = (None, Some err)
        /\ ((trace (snd out) = trace w /\ store (snd out) = store w)
            \/ exists c,
                 trace (snd out) = trace w ++ [c]
                 /\ answer w c <> None
                 /\ store (snd out) = fst (rdb_exec (store w) c))).
Proof.
  intros out. subst out.
  destruct (string_eqb (strings.TrimSpace (typename task)) "") eqn:Hb.
  { right. unfold Enqueue. rewrite Hb. simpl. eauto. }
  assert (Hty : strings.TrimSpace (typename task) <> "").
  { intros H. rewrite H in Hb. discriminate. }
  destruct (composeOptions_world (opts task ++ options) w) as [Hs1 Ht1].
  destruct (composeOptions (opts task ++ options) w)
    as [[opt [e|]] w1] eqn:Hc; simpl in Hs1, Ht1.
  { right. rewrite (Enqueue_rejected _ _ _ _ _ _ Hty Hc). simpl. eauto. }
  rewrite (Enqueue_composed _ _ _ _ _ Hty Hc).
  destruct (submit_full (taskMessage task opt) opt w1)
    as (c & state & t & Htr & Hst & Hres & Hcall).
  assert (Hmsg : rdb.message c = taskMessage task opt).
  { destruct Hcall as [-> | ->];
      [apply message_immediateCall|apply message_deferredCall]. }
  assert (Hans : answer w1 c = answer w c).
  { unfold answer. rewrite Hs1. reflexivity. }
  rewrite Htr, Hst, Hres, Ht1, Hs1, Hans. unfold result.
  destruct (answer w c) as [e|] eqn:Ha.
  - right.
    destruct (errors.Is (Some e) errors.ErrDuplicateTask);
      [|destruct (errors.Is (Some e) errors.ErrTaskIdConflict)];
      eexists; (split; [reflexivity|]); right; exists c;
      rewrite Ha; repeat split; congruence.
  - left. simpl. exists (newTaskInfo (taskMessage task opt) state t), c.
    rewrite Ha. repeat split; auto.
Qed.

Lemma result_error (err : option error) (msg : base.TaskMessage)
  (state : base.TaskState) (t : time.Time) (e : error) :
  snd (result err msg state t) = Some e ->
  errors.Is (Some e) errors.ErrDuplicateTask = false
  /\ errors.Is (Some e) errors.ErrTaskIdConflict = false.
Proof.
  unfold result.
  destruct (errors.Is err errors.ErrDuplicateTask) eqn:Hd.
  { simpl. intros H. inversion H. split; reflexivity. }
  destruct (errors.Is err errors.ErrTaskIdConflict) eqn:Hi.
  { simpl. intros H. inversion H. split; reflexivity. }
  destruct err as [e0|]; simpl; [|discriminate].
  intros H. inversion H; subst. auto.
Qed.

Lemma composeLoop_error (l : list Option) (res : option_) (w : World RDB)
  (res' : option_) (e : error) (w' : World RDB) :
  composeLoop l res w = ((res', Some e), w') ->
  exists o, In o l /\ validationError o = Some e.
Proof.
  revert res w. induction l as [|o l IH]; intros res w H.
  - simpl in H. unfold ret in H. inversion H.
  - rewrite composeLoop_cons in H.
    destruct (applyOption o res w) as [[res1|e1] w1] eqn:Hap.
    + destruct (IH _ _ H) as (o' & Hin & Hv).
      exists o'. split; [right; exact Hin|exact Hv].
    + unfold ret in H. inversion H; subst.
      exists o. split; [left; reflexivity|].
      destruct o; simpl in Hap |- *; unfold ret, bind in Hap;
        simpl in Hap;
        try (destruct (base_ValidateQueueName _) eqn:Hq);
        try (destruct (validateTaskID _) eqn:Hi);
        inversion Hap; subst; reflexivity.
Qed.

(** X6. The two errors of the internal package never reach the
    caller: provided the queue-name validation does not return one of
    them, no error returned by [Enqueue] is, or wraps, the internal
    duplicate error or the internal identifier conflict. *)
Theorem internal_errors_stay_inside (task : Task) (options : list Option)
  (w : World RDB) (e : error) :
  (forall qname err,
      base_ValidateQueueName qname = Some err ->
      errors.Is (Some err) errors.ErrDuplicateTask = false
      /\ errors.Is (Some err) errors.ErrTaskIdConflict = false) ->
  snd (fst (Enqueue task options w)) = Some e ->
  errors.Is (Some e) errors.ErrDuplicateTask = false
  /\ errors.Is (Some e) errors.ErrTaskIdConflict = false.
Proof.
  intros Hq.
  destruct (string_eqb (strings.TrimSpace (typename task)) "") eqn:Hb.
  { unfold Enqueue. rewrite Hb. simpl. intros H. inversion H.
    split; reflexivity. }
  assert (Hty : strings.TrimSpace (typename task) <> "").
  { intros H. rewrite H in Hb. discriminate. }
  destruct (composeOptions (opts task ++ options) w)
    as [[opt [e0|]] w1] eqn:Hc.
  - rewrite (Enqueue_rejected _ _ _ _ _ _ Hty Hc). simpl.
    intros H. inversion H; subst.
    rewrite composeOptions_loop in Hc.
    destruct (composeLoop_error _ _ _ _ _ _ Hc) as (o & _ & Hv).
    destruct o; simpl in Hv; try discriminate.
    + exact (Hq _ _ Hv).
    + unfold validateTaskID in Hv.
      destruct (string_eqb (strings.TrimSpace id) ""); inversion Hv.
      split; reflexivity.
  - rewrite (Enqueue_composed _ _ _ _ _ Hty Hc).
    destruct (submit_full (taskMessage task opt) opt w1)
      as (c & state & t & _ & _ & Hres & _).
    rewrite Hres. apply result_error.
Qed.

(** X7. [validateTaskID] refuses the identifiers made of white space
    only, the empty one among them, and no other. *)
Theorem validateTaskID_blank (id : string) :
  (strings.OnlySpace id ->
   validateTaskID id = Some (errorString "task ID cannot be empty"))
  /\ (~ strings.OnlySpace id -> validateTaskID id = None).
Proof.
  unfold validateTaskID. split; intros H.
  - rewrite (TrimSpace_OnlySpace _ H). reflexivity.
  - destruct (string_eqb (strings.TrimSpace id) "") eqn:Hb; [|reflexivity].
    apply string_eqb_true, blank_iff in Hb. contradiction.
Qed.

Lemma composeLoop_congr (pre l1 l2 : list Option) :
  (forall res w, composeLoop l1 res w = composeLoop l2 res w) ->
  forall res w,
    composeLoop (pre ++ l1) res w = composeLoop (pre ++ l2) res w.
Proof.
  intros H. induction pre as [|p pre IH]; intros res w; [apply H|].
  rewrite <- !List.app_comm_cons, !composeLoop_cons.
  destruct (applyOption p res w) as [[res1|e] w1]; [apply IH|reflexivity].
Qed.

(** X8. An option of a type the package does not know is ignored:
    wherever it stands among the options, [Enqueue] does what it does
    without it. *)
Theorem foreign_option_ignored (task : Task) (pre post : list Option)
  (name : string) (w : World RDB) :
  Enqueue task (pre ++ foreignOption name :: post) w
  = Enqueue task (pre ++ post) w.
Proof.
  apply Enqueue_ext. rewrite !List.app_assoc, !composeOptions_loop.
  apply composeLoop_congr. intros res w0. reflexivity.
Qed.

Lemma applyOption_swap (o1 o2 : Option) (rest : list Option) :
  validationError o1 = None -> validationError o2 = None ->
  fieldOf o1 <> fieldOf o2 ->
  forall res w,
    composeLoop (o1 :: o2 :: rest) res w
    = composeLoop (o2 :: o1 :: rest) res w.
Proof.
  intros H1 H2 Hf res w.
  destruct o1, o2; simpl in H1, H2, Hf; try congruence;
    simpl; unfold bind, ret, time_Now; simpl;
    rewrite ?H1, ?H2; simpl; rewrite ?H1, ?H2; reflexivity.
Qed.

(** X9. Two neighbouring options that pass their validation and
    write different fields can be given in either order: the outcome
    of [Enqueue] is the same. *)
Theorem options_commute (task : Task) (pre post : list Option)
  (o1 o2 : Option) (w : World RDB) :
  validationError o1 = None -> validationError o2 = None ->
  fieldOf o1 <> fieldOf o2 ->
  Enqueue task (pre ++ o1 :: o2 :: post) w
  = Enqueue task (pre ++ o2 :: o1 :: post) w.
Proof.
  intros H1 H2 Hf. apply Enqueue_ext.
  rewrite !List.app_assoc, !composeOptions_loop.
  apply composeLoop_congr. apply applyOption_swap; assumption.
Qed.

(** X10. The retention of the message is 0 when no option gives one,
    and the number of seconds given when the last [Retention] option
    is a whole number of seconds. *)
Theorem retention_seconds (task : Task) (options : list Option)
  (w : World RDB) (opt : option_) (w1 : World RDB) :
  composeOptions (opts task ++ options) w = ((opt, None), w1) ->
  (lastOf retentionOf (opts task ++ options) = None ->
   base.Retention (taskMessage task opt) = 0)
  /\ (forall k,
        - 2 ^ 53 < k < 2 ^ 53 ->
        lastOf retentionOf (opts task ++ options)
        = Some (k * time.Second) ->
        base.Retention (taskMessage task opt) = k).
Proof.
  intros Hc. rewrite composeOptions_loop in Hc.
  pose proof (composeLoop_retention _ _ _ _ _ Hc) as Hr.
  unfold pickOr in Hr. simpl in Hr.
  unfold taskMessage. simpl. split.
  - intros Hl. rewrite Hl in Hr. rewrite Hr. reflexivity.
  - intros k Hk Hl. rewrite Hl in Hr. rewrite Hr.
    apply whole_seconds. exact Hk.
Qed.

End More.

(** ** The log endpoint *)

Section Logs.

Context {gin : api.Gin}.

Lemma serve_cons (req : api.Request) (rest : list api.Request)
  (s : api.Server) :
  api.serve (req :: rest) s =
  (fst (api.loggerHandler req s)
     :: fst (api.serve rest (snd (api.loggerHandler req s))),
   snd (api.serve rest (snd (api.loggerHandler req s)))).
Proof.
  simpl. destruct (api.loggerHandler req s) as [r s1]. simpl.
  destruct (api.serve rest s1) as [rs s2]. reflexivity.
Qed.

(** What one request does, by what its body decodes to. *)
Lemma loggerHandler_cases (req : api.Request) (s : api.Server) :
  (exists bound,
      api.ShouldBindJSON req = inl bound
      /\ api.loggerHandler req s =
         ({| api.code := api.StatusCreated;
             api.body := api.EntryBody
                           {| api.Timestamp := api.Now (api.reads s);
                              api.Message := api.Message bound |} |},
          {| api.logs := api.logs s
                           ++ [{| api.Timestamp := api.Now (api.reads s);
                                  api.Message := api.Message bound |}];
             api.reads := S (api.reads s) |}))
  \/ (exists msg,
        api.ShouldBindJSON req = inr msg
        /\ api.loggerHandler req s =
           ({| api.code := api.StatusBadRequest;
               api.body := api.ErrorBody msg |}, s)).
Proof.
  unfold api.loggerHandler.
  destruct (api.ShouldBindJSON req) as [bound|msg]; eauto.
Qed.

(** X11. Whatever requests are handled, one after the other, each
    gets one reply, of status 201 or 400, and the log after them is
    the log before them followed by the entries of the 201 replies, in
    the order of the requests: nothing is removed from the log or
    changed in it, and a request that is refused adds nothing. *)
Theorem log_is_append_only (reqs : list api.Request) (s : api.Server) :
  List.length (fst (api.serve reqs s)) = List.length reqs
  /\ Forall (fun r => api.code r = 201 \/ api.code r = 400)
       (fst (api.serve reqs s))
  /\ api.logs (snd (api.serve reqs s))
     = api.logs s ++ api.created (fst (api.serve reqs s))
  /\ List.length (api.created (fst (api.serve reqs s)))
     = List.length (api.bound reqs)
  /\ api.reads (snd (api.serve reqs s))
     = (api.reads s + List.length (api.bound reqs))%nat.
Proof.
  revert s. induction reqs as [|req rest IH]; intros s.
  - simpl. rewrite List.app_nil_r. repeat split; auto.
  - rewrite serve_cons. cbn [fst snd List.length].
    destruct (loggerHandler_cases req s)
      as [(bound & Hb & ->)|(msg & Hb & ->)];
      cbn [fst snd]; destruct (IH
        (snd (api.loggerHandler req s))) as (Hl & Hc & Hlogs & Hn & Hr);
      unfold api.loggerHandler in Hl, Hc, Hlogs, Hn, Hr;
      rewrite Hb in Hl, Hc, Hlogs, Hn, Hr; cbn [fst snd] in *;
      cbn [api.bound]; rewrite Hb.
    + split; [rewrite Hl; reflexivity|].
      split; [constructor; [left; reflexivity|exact Hc]|].
      split; [|split].
      * rewrite Hlogs. cbn [api.logs api.created api.code api.body].
        change (api.StatusCreated =? api.StatusCreated) with true.
        cbn iota. rewrite <- List.app_assoc. reflexivity.
      * cbn [api.created api.code api.body].
        change (api.StatusCreated =? api.StatusCreated) with true.
        cbn [List.length]. rewrite Hn. reflexivity.
      * rewrite Hr. cbn [api.reads List.length]. lia.
    + split; [rewrite Hl; reflexivity|].
      split; [constructor; [right; reflexivity|exact Hc]|].
      cbn [api.created api.code api.body]. auto.
Qed.

Lemma Sorted_readings (a n : nat) :
  (forall k, api.Now k <= api.Now (S k)) ->
  Sorted Z.le (map api.Now (seq a n)).
Proof.
  intros Hmono. revert a. induction n as [|n IH]; intros a; simpl.
  - constructor.
  - constructor; [apply IH|].
    destruct n; simpl; constructor. apply Hmono.
Qed.

(** X12. The entries added to the log carry the messages of the
    bodies that decode, in the order of the requests, and the
    successive readings of the clock of the server as their
    timestamps, whatever timestamp a body may hold; on a clock that
    does not go back the timestamps are in order. *)
Theorem log_entries (reqs : list api.Request) (s : api.Server) :
  map api.Message (api.created (fst (api.serve reqs s)))
  = map api.Message (api.bound reqs)
  /\ map api.Timestamp (api.created (fst (api.serve reqs s)))
     = map api.Now (seq (api.reads s) (List.length (api.bound reqs)))
  /\ ((forall k, api.Now k <= api.Now (S k)) ->
      Sorted Z.le
        (map api.Timestamp (api.created (fst (api.serve reqs s))))).
Proof.
  assert (H : map api.Message (api.created (fst (api.serve reqs s)))
              = map api.Message (api.bound reqs)
              /\ map api.Timestamp (api.created (fst (api.serve reqs s)))
                 = map api.Now
                     (seq (api.reads s) (List.length (api.bound reqs)))).
  { revert s. induction reqs as [|req rest IH]; intros s.
    - split; reflexivity.
    - rewrite serve_cons. cbn [fst snd].
      destruct (loggerHandler_cases req s)
        as [(bound & Hb & ->)|(msg & Hb & ->)];
        cbn [fst snd];
        match goal with
        | |- context [api.serve rest ?s1] =>
            destruct (IH s1) as [Hm Ht]
        end;
        cbn [api.bound]; rewrite Hb;
        cbn [api.created api.code api.body].
      + change (api.StatusCreated =? api.StatusCreated) with true.
        cbn iota. cbn [map List.length seq api.Message api.Timestamp].
        rewrite Hm, Ht. cbn [api.reads]. split; reflexivity.
      + split; assumption. }
  destruct H as [Hm Ht]. split; [exact Hm|]. split; [exact Ht|].
  intros Hmono. rewrite Ht. apply Sorted_readings. exact Hmono.
Qed.

End Logs.

Section Echo.

Context {gin : echo.Gin}.

(** X13. The handler that writes to the application log keeps no
    state: handled one after the other, every request gets the reply
    its own body calls for (400 with the message of the binding error,
    or 200 with the entry decoded), and the log grows by one line for
    each request whose body decodes, in order, the JSON of the entry
    or an empty line when the entry cannot be marshalled; a refused
    request writes nothing. *)
Theorem echo_serve (reqs : list echo.Request) (lines : list string) :
  fst (echo.serve reqs lines) = map echo.replyTo reqs
  /\ snd (echo.serve reqs lines) = lines ++ flat_map echo.lineOf reqs.
Proof.
  revert lines. induction reqs as [|req rest IH]; intros lines.
  - simpl. rewrite List.app_nil_r. split; reflexivity.
  - simpl.
    destruct (echo.loggerHandler req lines) as [r lines1] eqn:Hh.
    destruct (IH lines1) as [Hf Hs].
    destruct (echo.serve rest lines1) as [rs lines2]. simpl in *.
    unfold echo.loggerHandler in Hh. unfold echo.replyTo, echo.lineOf.
    destruct (echo.ShouldBindJSON req) as [entry|msg];
      inversion Hh; subst.
    + split; [reflexivity|].
      rewrite <- List.app_assoc.
      destruct (echo.Marshal entry); reflexivity.
    + split; reflexivity.
Qed.

End Echo.

(** Three requests, the second with a body that does not decode and
    the third with a timestamp of its own: two entries, stamped by the
    server. *)
Example three_requests :
  api.serve (gin := api.literal)
    [Some {| api.Timestamp := 0; api.Message := "started" |};
     None;
     Some {| api.Timestamp := 42; api.Message := "stopped" |}]
    {| api.logs := []; api.reads := 0 |}
  = ([{| api.code := 201;
         api.body := api.EntryBody
                       {| api.Timestamp := 1700000000000000000;
                          api.Message := "started" |} |};
      {| api.code := 400; api.body := api.ErrorBody "EOF" |};
      {| api.code := 201;
         api.body := api.EntryBody
                       {| api.Timestamp := 1700000000000000001;
                          api.Message := "stopped" |} |}],
     {| api.logs := [{| api.Timestamp := 1700000000000000000;
                        api.Message := "started" |};
                     {| api.Timestamp := 1700000000000000001;
                        api.Message := "stopped" |}];
        api.reads := 2 |}).
Proof. reflexivity. Qed.

(** ** More of the client at work *)

Lemma running_mono (k : nat) :
  @clock Fake.env k <= @clock Fake.env (S k).
Proof.
  change (Fake.running k <= Fake.running (S k)).
  unfold Fake.running, time.Second, time.Millisecond, time.Microsecond,
    time.Nanosecond.
  rewrite Nat2Z.inj_succ. lia.
Qed.

Lemma fake_queue_errors (qname : string) (err : error) :
  @base_ValidateQueueName Fake.env qname = Some err ->
  errors.Is (Some err) errors.ErrDuplicateTask = false
  /\ errors.Is (Some err) errors.ErrTaskIdConflict = false.
Proof.
  simpl. unfold Fake.ValidateQueueName.
  destruct (string_eqb (strings.TrimSpace qname) ""); intros H;
    inversion H. split; reflexivity.
Qed.

(** [MaxRetry(-3)] gives a message with no retry. *)
Lemma retry_never_negative_witness :
  exists opt w1,
    composeOptions (env := Fake.env) (opts Fake.welcome ++ [MaxRetry (-3)])
      Fake.fresh = ((opt, None), w1)
    /\ base.Retry (taskMessage (env := Fake.env) Fake.welcome opt) = 0.
Proof.
  eexists. eexists. split; [reflexivity|].
  edestruct (retry_never_negative (env := Fake.env) Fake.welcome
               [MaxRetry (-3)] Fake.fresh) as (_ & _ & H).
  - reflexivity.
  - intros n [Hn|[]]. exists (-3). symmetry. exact Hn.
  - exact (H [] (-3) [] eq_refl (Forall_nil _)).
Defined.

Lemma Option_Type_Value_inj_witness :
  Unique time.Minute = uniqueOption (60 * time.Second).
Proof.
  apply Option_Type_Value_inj; [discriminate|reflexivity|reflexivity].
Defined.

(** A task asked for five seconds ago, by [ProcessIn], is pending. *)
Lemma not_after_is_pending_witness :
  exists info,
    fst (fst (Fake.run Fake.welcome [ProcessIn (-5 * time.Second)]
                Fake.fresh)) = Some info
    /\ info_state info = base.TaskStatePending
    /\ info_nextProcessAt info = Fake.running 2.
Proof.
  eexists. split; [reflexivity|].
  edestruct (not_after_is_pending (env := Fake.env) Fake.welcome
               [ProcessIn (-5 * time.Second)] Fake.fresh) as [_ Hinfo].
  - exact running_mono.
  - exact welcome_typename.
  - reflexivity.
  - repeat constructor. simpl. vm_compute. discriminate.
  - apply Hinfo. reflexivity.
Defined.

(** [Unique] of a negative time: a plain call, and no key. *)
Lemma unique_call_iff_key_witness :
  exists msg,
    trace (snd (Fake.run Fake.welcome [Unique (- time.Minute)] Fake.fresh))
    = [rdb.Enqueue msg]
    /\ base.UniqueKey msg = "".
Proof.
  eexists. split; [reflexivity|].
  edestruct (unique_call_iff_key (env := Fake.env) Fake.welcome
               [Unique (- time.Minute)] Fake.fresh)
    as (c & _ & _ & Hle & _).
  - exact welcome_typename.
  - reflexivity.
  - apply Hle. vm_compute. discriminate.
Defined.

(** The duplicate reported to the caller is the public error, not the
    internal one. *)
Lemma internal_errors_stay_inside_witness :
  snd (fst (Fake.run Fake.welcome [Unique time.Minute] Fake.once))
  = Some wrap_ErrDuplicateTask
  /\ errors.Is (Some wrap_ErrDuplicateTask) errors.ErrDuplicateTask = false.
Proof.
  split; [reflexivity|].
  exact (proj1 (internal_errors_stay_inside (env := Fake.env) Fake.welcome
                  [Unique time.Minute] Fake.once wrap_ErrDuplicateTask
                  fake_queue_errors eq_refl)).
Defined.

Lemma options_commute_witness :
  Fake.run Fake.welcome [Queue "critical"; ProcessIn time.Hour; MaxRetry 3]
    Fake.fresh
  = Fake.run Fake.welcome [Queue "critical"; MaxRetry 3; ProcessIn time.Hour]
      Fake.fresh.
Proof.
  apply (options_commute (env := Fake.env) Fake.welcome [Queue "critical"]
           [] (ProcessIn time.Hour) (MaxRetry 3) Fake.fresh).
  - reflexivity.
  - reflexivity.
  - discriminate.
Defined.

(** Two options that write the same field do not commute. *)
Example same_field_order_matters :
  fst (Fake.run Fake.welcome [MaxRetry 1; MaxRetry 2] Fake.fresh)
  <> fst (Fake.run Fake.welcome [MaxRetry 2; MaxRetry 1] Fake.fresh).
Proof. vm_compute. discriminate. Qed.

(** A retention of two hours is 7200 seconds in the message. *)
Lemma retention_seconds_witness :
  exists opt w1,
    composeOptions (env := Fake.env)
      (opts Fake.welcome ++ [Retention (7200 * time.Second)]) Fake.fresh
    = ((opt, None), w1)
    /\ base.Retention (taskMessage (env := Fake.env) Fake.welcome opt) = 7200.
Proof.
  eexists. eexists. split; [reflexivity|].
  edestruct (retention_seconds (env := Fake.env) Fake.welcome
               [Retention (7200 * time.Second)] Fake.fresh) as [_ H].
  - reflexivity.
  - apply (H 7200); [lia|reflexivity].
Defined.
